(** * Minesweeper knowledge engine (Week 1/minesweeper/minesweeper.py)

    A shallow embedding of the classes [Minesweeper] (the part that
    answers observations), [Sentence] and [MinesweeperAI], followed by
    the properties of the inference loop of [add_knowledge].

    Conventions:
    - a Python [int] is a [Z]; a cell is the tuple [(row, col)];
    - a Python [set] of cells is a [gset cell]; iterating over a set
      visits [elements] of it, one enumeration without repetition.
      Python fixes no order: [marked_any_order] and
      [first_unplayed_spec] show that the order does not matter;
    - [self.knowledge] is a [list Sentence].  No sentence object is
      stored twice in it, so the in-place mutation of sentences is a
      [map] over the list;
    - a method that mutates the engine is a function on [AI]; the
      [while] loop of [add_knowledge] takes fuel and returns [None]
      when the fuel runs out. *)

From stdpp Require Import gmap list sets sorting.

Open Scope Z_scope.

(* [set_solver] clears hypotheses it has already consumed. *)
#[global] Set Warnings "-clear-no-such-hyp".

(** ** Data model *)

Abbreviation cell := (Z * Z)%type.

(** [class Sentence]: [self.cells], [self.count]. *)
Record Sentence : Type := mkSentence {
  cells : gset cell;
  count : Z
}.

(** [Sentence.__eq__] compares cells and count: it is equality of records. *)
#[global] Instance Sentence_eq_dec : EqDecision Sentence.
Proof. solve_decision. Defined.

(** [class MinesweeperAI]. *)
Record AI : Type := mkAI {
  height : Z;
  width : Z;
  moves_made : gset cell;
  mines : gset cell;
  safes : gset cell;
  knowledge : list Sentence
}.

(** [MinesweeperAI.__init__]. *)
Definition init (h w : Z) : AI :=
  {| height := h; width := w;
     moves_made := ∅; mines := ∅; safes := ∅; knowledge := [] |}.

(** [class Minesweeper], as far as the engine observes it: the size and
    the grid [self.board[i][j]]. *)
Record Minesweeper : Type := mkGame {
  g_height : Z;
  g_width : Z;
  board : Z → Z → bool
}.

(** Python's [range(a, b)]. *)
Definition range (a b : Z) : list Z := seqZ a (b - a).

(** Order in which a [for] loop visits a set. *)
Definition set_iter (X : gset cell) : list cell := elements X.

(** ** Minesweeper.nearby_mines *)

Definition in_bounds (h w : Z) (c : cell) : bool :=
  bool_decide (0 ≤ c.1 < h) && bool_decide (0 ≤ c.2 < w).

Definition nearby_mines (g : Minesweeper) (c : cell) : Z :=
  foldl (λ cnt i,
    foldl (λ cnt j,
      if decide ((i, j) = c) then cnt
      else if in_bounds (g_height g) (g_width g) (i, j)
           then (if board g i j then cnt + 1 else cnt)
           else cnt)
      cnt (range (c.2 - 1) (c.2 + 2)))
    0 (range (c.1 - 1) (c.1 + 2)).

(** [Minesweeper.is_mine], guarded by the bounds of the grid. *)
Definition mine_at (g : Minesweeper) (c : cell) : bool :=
  in_bounds (g_height g) (g_width g) c && board g c.1 c.2.

(** ** Sentence *)

Definition known_mines (s : Sentence) : gset cell :=
  if decide (Z.of_nat (size (cells s)) = count s) then cells s else ∅.

Definition known_safes (s : Sentence) : gset cell :=
  if decide (count s = 0) then cells s else ∅.

Definition sentence_mark_mine (c : cell) (s : Sentence) : Sentence :=
  if decide (c ∈ cells s)
  then {| cells := cells s ∖ {[c]}; count := count s - 1 |}
  else s.

Definition sentence_mark_safe (c : cell) (s : Sentence) : Sentence :=
  if decide (c ∈ cells s)
  then {| cells := cells s ∖ {[c]}; count := count s |}
  else s.

(** ** MinesweeperAI.mark_mine / mark_safe *)

Definition mark_mine (st : AI) (c : cell) : AI :=
  {| height := height st; width := width st;
     moves_made := moves_made st;
     mines := mines st ∪ {[c]};
     safes := safes st;
     knowledge := sentence_mark_mine c <$> knowledge st |}.

Definition mark_safe (st : AI) (c : cell) : AI :=
  {| height := height st; width := width st;
     moves_made := moves_made st;
     mines := mines st;
     safes := safes st ∪ {[c]};
     knowledge := sentence_mark_safe c <$> knowledge st |}.

(** ** MinesweeperAI.get_surroundings *)

Definition get_surroundings (st : AI) (c : cell) : list cell :=
  let left_x := c.2 - 1 in
  let right_x := c.2 + 1 in
  let up_y := c.1 - 1 in
  let down_y := c.1 + 1 in
  let left_bound := bool_decide (c.2 = 0) in
  let right_bound := bool_decide (c.2 = width st - 1) in
  let upper_bound := bool_decide (c.1 = 0) in
  let lower_bound := bool_decide (c.1 = height st - 1) in
  if left_bound then
    (if upper_bound then [(down_y, 0); (down_y, 1)]
     else if lower_bound then [(up_y, 0); (up_y, 1)]
     else [(up_y, 0); (up_y, 1); (down_y, 0); (down_y, 1)])
    ++ [(c.1, right_x)]
  else if right_bound then
    (if upper_bound then [(down_y, c.2); (down_y, left_x)]
     else if lower_bound then [(up_y, left_x); (up_y, c.2)]
     else [(up_y, left_x); (up_y, c.2); (down_y, left_x); (down_y, c.2)])
    ++ [(c.1, left_x)]
  else if upper_bound then
    (if left_bound then [(down_y, right_x); (c.1, right_x)]
     else if right_bound then [(down_y, left_x); (c.1, left_x)]
     else [(down_y, left_x); (c.1, left_x); (down_y, right_x); (c.1, right_x)])
    ++ [(down_y, c.2)]
  else if lower_bound then
    (if left_bound then [(up_y, right_x); (c.1, right_x)]
     else if right_bound then [(up_y, left_x); (c.1, left_x)]
     else [(up_y, left_x); (c.1, left_x); (up_y, right_x); (c.1, right_x)])
    ++ [(up_y, c.2)]
  else
    [(c.1, left_x); (up_y, left_x); (down_y, left_x);
     (c.1, right_x); (up_y, right_x); (down_y, right_x);
     (up_y, c.2); (down_y, c.2)].

(** ** MinesweeperAI.add_knowledge *)

Definition set_knowledge (st : AI) (K : list Sentence) : AI :=
  {| height := height st; width := width st;
     moves_made := moves_made st; mines := mines st; safes := safes st;
     knowledge := K |}.

Definition add_move (st : AI) (c : cell) : AI :=
  {| height := height st; width := width st;
     moves_made := moves_made st ∪ {[c]};
     mines := mines st; safes := safes st;
     knowledge := knowledge st |}.

Definition add_safe (st : AI) (c : cell) : AI :=
  {| height := height st; width := width st;
     moves_made := moves_made st;
     mines := mines st; safes := safes st ∪ {[c]};
     knowledge := knowledge st |}.

Definition add_cell (s : Sentence) (c : cell) : Sentence :=
  {| cells := cells s ∪ {[c]}; count := count s |}.

Definition decr_count (s : Sentence) : Sentence :=
  {| cells := cells s; count := count s - 1 |}.

(** Body of the loop over the surrounding cells (lines 287-296); [n] is
    the parameter [count], [acc] the pair of [sent] and [self]. *)
Definition observe (n : Z) (acc : Sentence * AI) (c : cell) : Sentence * AI :=
  let '(sent, st) := acc in
  if decide (n = 0) then
    if decide ((c ∉ safes st) ∧ (c ∉ mines st))
    then (add_cell sent c, add_safe st c)
    else (sent, st)
  else
    let sent1 :=
      if decide ((c ∉ mines st) ∧ (c ∉ safes st)) then add_cell sent c else sent in
    let sent2 :=
      if decide (c ∈ mines st) then decr_count sent1 else sent1 in
    (sent2, st).

(** Lines 282-298: record the move, build the sentence, append it. *)
Definition record_observation (c : cell) (n : Z) (st : AI) : AI :=
  let st1 := mark_safe (add_move st c) c in
  let '(sent, st2) :=
    foldl (observe n) ({| cells := ∅; count := n |}, st1)
          (get_surroundings st1 c) in
  set_knowledge st2 (knowledge st2 ++ [sent]).

(** A [for x in xs] loop over a list that its body may mutate: the
    iterator keeps an index [i] and reads [xs[i]] from the current list
    until the index runs past the end.  [n] bounds the number of
    iterations; [for_in_budget] below shows that the length of the list
    at the start of the loop is an exact budget for bodies that keep
    the length. *)
Fixpoint for_in {A T : Type} (get : T → list A) (body : A → T → T)
    (n i : nat) (s : T) : T :=
  match n with
  | O => s
  | S n' =>
      match get s !! i with
      | None => s
      | Some x => for_in get body n' (S i) (body x s)
      end
  end.

(** [list.remove(x)]: drops the first element equal to [x].  Python
    raises [ValueError] when there is none; the only call removes an
    element just read from the list (see [resolve_present]). *)
Fixpoint remove_first (x : Sentence) (l : list Sentence) : list Sentence :=
  match l with
  | [] => []
  | y :: l' => if decide (y = x) then l' else y :: remove_first x l'
  end.

(** The sentence built at lines 335-337. *)
Definition difference_sentence (s1 s2 : Sentence) : Sentence :=
  {| cells := cells s2 ∖ cells s1; count := count s2 - count s1 |}.

(** Body of the inner loop (lines 331-341) on the pair of
    [self.knowledge] and [knowledge_changed]. *)
Definition resolve_body (s1 s2 : Sentence) (acc : list Sentence * bool)
    : list Sentence * bool :=
  if decide (s1 = s2) then acc
  else if decide (cells s1 ⊆ cells s2) then
    (remove_first s2 (acc.1 ++ [difference_sentence s1 s2]), true)
  else acc.

Definition resolve_inner (s1 : Sentence) (acc : list Sentence * bool)
    : list Sentence * bool :=
  for_in fst (resolve_body s1) (length acc.1) 0 acc.

(** Lines 329-341. *)
Definition combine (acc : list Sentence * bool) : list Sentence * bool :=
  for_in fst resolve_inner (length acc.1) 0 acc.

Definition is_empty_sentence (s : Sentence) : bool :=
  bool_decide (size (cells s) = 0%nat) && bool_decide (count s = 0).

(** Lines 306-314: one pass collecting [remove_empty], [safes], [mines]. *)
Definition collect (K : list Sentence)
    : list Sentence * gset cell * gset cell :=
  foldl (λ '(remove_empty, safes, mines) sentence,
           (if is_empty_sentence sentence
            then remove_empty ++ [sentence] else remove_empty,
            safes ∪ known_safes sentence,
            mines ∪ known_mines sentence))
        ([], ∅, ∅) K.

(** Line 317. *)
Definition cleanup (remove_empty K : list Sentence) : list Sentence :=
  filter (λ x, x ∉ remove_empty) K.

(** Lines 320-322 and 324-326. *)
Definition mark_all (mark : AI → cell → AI) (acc : AI * bool)
    (X : gset cell) : AI * bool :=
  foldl (λ '(st, _) c, (mark st c, true)) acc (set_iter X).

(** One iteration of the [while] loop (lines 304-341): the new state
    and [knowledge_changed]. *)
Definition sweep (st : AI) : AI * bool :=
  let '(remove_empty, safes, mines) := collect (knowledge st) in
  let st1 := set_knowledge st (cleanup remove_empty (knowledge st)) in
  let acc2 := mark_all mark_safe (st1, false) safes in
  let '(st3, ch3) := mark_all mark_mine acc2 mines in
  let '(K, ch) := combine (knowledge st3, ch3) in
  (set_knowledge st3 K, ch).

(** Lines 302-341. *)
Fixpoint inference (fuel : nat) (st : AI) : option AI :=
  match fuel with
  | O => None
  | S fuel' =>
      let '(st', changed) := sweep st in
      if changed then inference fuel' st' else Some st'
  end.

Definition add_knowledge (fuel : nat) (c : cell) (n : Z) (st : AI)
    : option AI :=
  inference fuel (record_observation c n st).

(** ** Move selection *)

(** The loop of [make_safe_move] over the cells of [self.safes] visited
    in the order [order]: the first one that was not played, or [None]
    when the loop falls through. *)
Definition first_unplayed (order : list cell) (st : AI) : option cell :=
  list_find (λ safe_cell, safe_cell ∉ moves_made st) order
    ≫= (λ r, Some r.2).

(** [make_safe_move]: the result and the engine afterwards. *)
Definition make_safe_move (st : AI) : option cell * AI :=
  (first_unplayed (set_iter (safes st)) st, st).

(** [make_random_move]: the result and the engine afterwards. *)
Definition make_random_move (st : AI) : option cell * AI :=
  (list_find (λ c, (c ∉ moves_made st) ∧ (c ∉ mines st))
     (x ← range 0 (width st); y ← range 0 (height st); [(y, x)])
     ≫= (λ r, Some r.2),
   st).

(** ** Notions used in the statements *)

(** Number of mines of the game among the cells of [X]. *)
Definition mines_in (g : Minesweeper) (X : gset cell) : Z :=
  Z.of_nat (size (filter (λ c, mine_at g c = true) X)).

(** A sentence is true of the game when its count is the number of
    mines among its cells. *)
Definition true_sentence (g : Minesweeper) (s : Sentence) : Prop :=
  count s = mines_in g (cells s).

(** What the engine holds is true of the game. *)
Record sound (g : Minesweeper) (st : AI) : Prop := mkSound {
  sound_mines : ∀ c, c ∈ mines st → mine_at g c = true;
  sound_safes : ∀ c, c ∈ safes st → mine_at g c = false;
  sound_knowledge : Forall (true_sentence g) (knowledge st)
}.

(** A legal, truthful observation: a cell of the board that is not a
    mine and was not played before, with the number of mines around it. *)
Definition legal_observation (g : Minesweeper) (st : AI) (c : cell) (n : Z)
    : Prop :=
  in_bounds (g_height g) (g_width g) c = true ∧
  mine_at g c = false ∧
  (c ∉ moves_made st) ∧
  n = nearby_mines g c.

(** Engines reached from a fresh one by legal observations of [g]. *)
Inductive reachable (g : Minesweeper) : AI → Prop :=
  | reachable_init : reachable g (init (g_height g) (g_width g))
  | reachable_add st c n fuel st' :
      reachable g st →
      legal_observation g st c n →
      add_knowledge fuel c n st = Some st' →
      reachable g st'.

(** Total number of cells held by the sentences. *)
Definition mass (K : list Sentence) : nat :=
  sum_list_with (λ s, size (cells s)) K.

(** The three sets of [st] are included in those of [st']. *)
Definition grows (st st' : AI) : Prop :=
  moves_made st ⊆ moves_made st' ∧
  mines st ⊆ mines st' ∧
  safes st ⊆ safes st'.

(** One call of a mutating method. *)
Inductive call : AI → AI → Prop :=
  | call_mark_mine st c : call st (mark_mine st c)
  | call_mark_safe st c : call st (mark_safe st c)
  | call_add_knowledge st fuel c n st' :
      add_knowledge fuel c n st = Some st' → call st st'.

(** One execution of lines 335-341 on the knowledge list and the flag. *)
Inductive resolves : list Sentence * bool → list Sentence * bool → Prop :=
  | resolves_pair K ch s1 s2 :
      s1 ∈ K → s2 ∈ K → s1 ≠ s2 → cells s1 ⊆ cells s2 →
      resolves (K, ch)
               (remove_first s2 (K ++ [difference_sentence s1 s2]), true).

(** The pairs on which the loop acts (lines 331-334): [s1] and [s2]
    differ and the cells of [s1] are among those of [s2]. *)
Definition resolvable (s1 s2 : Sentence) : Prop :=
  s1 ≠ s2 ∧ cells s1 ⊆ cells s2.

(** The Moore neighbourhood of [c] on a board of [h] rows and [w] columns. *)
Definition moore (h w : Z) (c x : cell) : Prop :=
  in_bounds h w x = true ∧ x ≠ c ∧
  -1 ≤ x.1 - c.1 ≤ 1 ∧ -1 ≤ x.2 - c.2 ≤ 1.

(** A true sentence that still holds cells. *)
Definition solid (g : Minesweeper) (s : Sentence) : Prop :=
  true_sentence g s ∧ cells s ≠ ∅.

(** The engine after the cleanup and the two marking loops of a sweep,
    and the flag at that point. *)
Definition marked (st : AI) : AI :=
  let K := knowledge st in
  foldl mark_mine
    (foldl mark_safe (set_knowledge st (cleanup (collect K).1.1 K))
       (set_iter (⋃ (known_safes <$> K))))
    (set_iter (⋃ (known_mines <$> K))).

Definition marked_flag (st : AI) : bool :=
  bool_decide (⋃ (known_safes <$> knowledge st) ≠ ∅)
  || bool_decide (⋃ (known_mines <$> knowledge st) ≠ ∅).

(** Number of mines of the game among the cells of a list. *)
Definition count_mines (g : Minesweeper) (l : list cell) : Z :=
  Z.of_nat (length (filter (λ x, mine_at g x = true) l)).

(** ** Example games and engines *)

(** A 2x2 game whose only safe cell is the corner (0,0). *)
Definition corner_game : Minesweeper :=
  {| g_height := 2; g_width := 2;
     board := λ i j, negb (bool_decide ((i, j) = (0, 0))) |}.

(** The engine after [add_knowledge((0,0), 3)] on [corner_game]. *)
Definition corner_engine : AI :=
  {| height := 2; width := 2;
     moves_made := {[ (0, 0) ]};
     mines := {[ (0, 1); (1, 0); (1, 1) ]};
     safes := {[ (0, 0) ]};
     knowledge := [] |}.

(** A 2x2 game whose only mine is at (1,1). *)
Definition twin_game : Minesweeper :=
  {| g_height := 2; g_width := 2;
     board := λ i j, bool_decide ((i, j) = (1, 1)) |}.

(** [{(1,0), (1,1)} = 1]. *)
Definition twin_sentence : Sentence :=
  {| cells := {[ (1, 0); (1, 1) ]}; count := 1 |}.

(** The engine after [add_knowledge((0,0), 1)] and
    [add_knowledge((0,1), 1)] on [twin_game]: it holds the same
    sentence twice. *)
Definition twin_engine : AI :=
  {| height := 2; width := 2;
     moves_made := {[ (0, 0); (0, 1) ]};
     mines := ∅;
     safes := {[ (0, 0); (0, 1) ]};
     knowledge := [twin_sentence; twin_sentence] |}.

(** The sentences of the example of subset resolution: [{c1, c2} = 1],
    [{c1, c2, c3} = 2], and the two derived from them. *)
Definition two_cells (c1 c2 : cell) : Sentence :=
  {| cells := {[ c1; c2 ]}; count := 1 |}.

Definition three_cells (c1 c2 c3 : cell) : Sentence :=
  {| cells := {[ c1; c2; c3 ]}; count := 2 |}.

Definition one_cell (c3 : cell) : Sentence :=
  {| cells := {[ c3 ]}; count := 1 |}.

Definition no_cell : Sentence := {| cells := ∅; count := 0 |}.

(** Sentences of an example where a third sentence comes first:
    [{(0,1), (0,2)} = 1] and [{(0,0), (0,1), (0,2), (0,3)} = 2]. *)
Definition front_sentence : Sentence :=
  {| cells := {[ (0, 1); (0, 2) ]}; count := 1 |}.

Definition four_cells : Sentence :=
  {| cells := {[ (0, 0); (0, 1); (0, 2); (0, 3) ]}; count := 2 |}.

(** The eight cells around a cell, on or off the board. *)
Definition around (c : cell) : list cell :=
  [(c.1 - 1, c.2 - 1); (c.1 - 1, c.2); (c.1 - 1, c.2 + 1);
   (c.1, c.2 - 1); (c.1, c.2 + 1);
   (c.1 + 1, c.2 - 1); (c.1 + 1, c.2); (c.1 + 1, c.2 + 1)].

(** Two games that differ at most at the cell [c]. *)
Definition same_but (c : cell) (g g' : Minesweeper) : Prop :=
  g_height g' = g_height g ∧ g_width g' = g_width g ∧
  ∀ i j, (i, j) ≠ c → board g' i j = board g i j.

(** A 2x2 game without mines, and the engine after
    [add_knowledge((0,0), 0)] on it. *)
Definition open_game : Minesweeper :=
  {| g_height := 2; g_width := 2; board := λ _ _, false |}.

Definition open_engine : AI :=
  {| height := 2; width := 2;
     moves_made := {[ (0, 0) ]};
     mines := ∅;
     safes := {[ (0, 0); (0, 1); (1, 0); (1, 1) ]};
     knowledge := [] |}.

(** One call of [add_knowledge], with any cell and count. *)
Definition observes (st st' : AI) : Prop :=
  ∃ fuel c n, add_knowledge fuel c n st = Some st'.

(** The engine after [add_knowledge((0,0), 1)] on [twin_game]. *)
Definition twin_engine_before : AI :=
  {| height := 2; width := 2;
     moves_made := {[ (0, 0) ]};
     mines := ∅;
     safes := {[ (0, 0) ]};
     knowledge := [ {| cells := {[ (0, 1); (1, 0); (1, 1) ]}; count := 1 |} ] |}.

(** No sentence holds a cell that is in [safes] or in [mines]. *)
Definition fresh (st : AI) : Prop :=
  ∀ s c, s ∈ knowledge st → c ∈ cells s → (c ∉ safes st) ∧ (c ∉ mines st).

(** The cells of sentences that are in [safes] or [mines] are all about
    to be marked safe by the next sweep. *)
Definition pending (st : AI) : Prop :=
  ∀ s c, s ∈ knowledge st → c ∈ cells s → c ∈ safes st ∪ mines st →
         c ∈ ⋃ (known_safes <$> knowledge st).

(** The order in which [make_random_move] scans the board: column by
    column, and down each column. *)
Definition scanned_before (c c' : cell) : Prop :=
  c.2 < c'.2 ∨ (c.2 = c'.2 ∧ c.1 < c'.1).

(** A sentence without cells and with count [a]. *)
Definition hollow (a : Z) : Sentence := {| cells := ∅; count := a |}.

(** The engine after [add_knowledge((0,0), 0)] and
    [add_knowledge((0,1), 1)] on a 2x2 board; the second count is
    false, all the cells around (0,1) being known safe: the engine
    keeps a sentence without cells and with count 1. *)
Definition misled_engine : AI :=
  {| height := 2; width := 2;
     moves_made := {[ (0, 0); (0, 1) ]};
     mines := ∅;
     safes := {[ (0, 0); (0, 1); (1, 0); (1, 1) ]};
     knowledge := [hollow 1] |}.

(** * Properties *)

(** ** Loops over a mutated list *)

Section for_in.
Context {A T : Type} (get : T → list A) (body : A → T → T).

Lemma for_in_inv (P : T → Prop) :
  (∀ x s, P s → x ∈ get s → P (body x s)) →
  ∀ n i s, P s → P (for_in get body n i s).
Proof.
  intros Hbody n. induction n as [|n IH]; intros i s Hs; simpl; [done|].
  destruct (get s !! i) as [x|] eqn:Hx; [|done].
  apply IH, Hbody; [done|]. by eapply list_elem_of_lookup_2.
Qed.

(** A body that keeps the length of the list never needs more
    iterations than the elements left: the budget is exact. *)
Lemma for_in_budget :
  (∀ x s, x ∈ get s → length (get (body x s)) = length (get s)) →
  ∀ n m i s, (length (get s) ≤ n + i)%nat → (n ≤ m)%nat →
    for_in get body m i s = for_in get body n i s.
Proof.
  intros Hlen n. induction n as [|n IH]; intros m i s Hn Hm.
  - destruct m; simpl; [done|].
    rewrite (lookup_ge_None_2 (get s) i); [done|lia].
  - destruct m as [|m]; [lia|]. simpl.
    destruct (get s !! i) as [x|] eqn:Hx; [|done].
    apply IH; [|lia].
    rewrite Hlen; [lia|]. by eapply list_elem_of_lookup_2.
Qed.
End for_in.

(** ** [list.remove] and the mass of a list *)

Lemma remove_first_elem_of x y l : y ∈ remove_first x l → y ∈ l.
Proof.
  induction l as [|z l IH]; simpl; [done|].
  case_decide; [by right|]. rewrite !elem_of_cons. tauto.
Qed.

Lemma remove_first_other x y l : y ∈ l → y ≠ x → y ∈ remove_first x l.
Proof.
  induction l as [|z l IH]; simpl; [done|].
  intros [->|Hy]%elem_of_cons Hne; case_decide; subst;
    rewrite ?elem_of_cons; tauto.
Qed.

Lemma remove_first_length x l :
  x ∈ l → S (length (remove_first x l)) = length l.
Proof.
  induction l as [|z l IH]; simpl; [by intros ?%elem_of_nil|].
  intros [->|Hx]%elem_of_cons; case_decide; try done; simpl; f_equal; by apply IH.
Qed.

Lemma remove_first_mass x l :
  x ∈ l → (mass (remove_first x l) + size (cells x) = mass l)%nat.
Proof.
  unfold mass. induction l as [|z l IH]; simpl; [by intros ?%elem_of_nil|].
  intros Hx. case_decide as Hz; [subst; lia|].
  simpl. rewrite <- IH; [lia|]. by apply elem_of_cons in Hx as [->|Hx].
Qed.

Lemma remove_first_Forall (P : Sentence → Prop) x l :
  Forall P l → Forall P (remove_first x l).
Proof.
  rewrite !Forall_forall. intros HP y Hy. by eapply HP, remove_first_elem_of.
Qed.

Lemma mass_app K1 K2 : mass (K1 ++ K2) = (mass K1 + mass K2)%nat.
Proof. apply sum_list_with_app. Qed.

Lemma mass_elem_of s K : s ∈ K → (size (cells s) ≤ mass K)%nat.
Proof. apply (sum_list_with_in s (λ s, size (cells s))). Qed.

(** ** Subset resolution: the double loop *)

(** The removal of line 340 always finds its element. *)
Lemma resolve_present s1 s2 K : s2 ∈ K → s2 ∈ K ++ [difference_sentence s1 s2].
Proof. intros. apply elem_of_app. by left. Qed.

Lemma resolves_length acc acc' :
  resolves acc acc' → length acc'.1 = length acc.1.
Proof.
  destruct 1 as [K ch s1 s2 H1 H2 Hne Hsub]. simpl.
  pose proof (remove_first_length s2 (K ++ [difference_sentence s1 s2])
                (resolve_present s1 s2 K H2)) as Hl.
  rewrite length_app in Hl. simpl in Hl. lia.
Qed.

Lemma mass_cons s K : mass (s :: K) = (size (cells s) + mass K)%nat.
Proof. done. Qed.

Lemma resolves_mass acc acc' :
  resolves acc acc' →
  ∃ s1, s1 ∈ acc.1 ∧ (mass acc'.1 + size (cells s1) = mass acc.1)%nat.
Proof.
  destruct 1 as [K ch s1 s2 H1 H2 Hne Hsub]. simpl. exists s1. split; [done|].
  pose proof (remove_first_mass s2 (K ++ [difference_sentence s1 s2])
                (resolve_present s1 s2 K H2)) as Hm.
  rewrite mass_app, mass_cons in Hm. simpl in Hm.
  pose proof (size_difference (cells s2) (cells s1) Hsub) as Hd.
  pose proof (subseteq_size _ _ Hsub). lia.
Qed.

Lemma rtc_resolves_length acc acc' :
  rtc resolves acc acc' → length acc'.1 = length acc.1.
Proof.
  induction 1 as [|x y z Hxy _ IH]; [done|].
  rewrite IH. by apply resolves_length.
Qed.

Lemma rtc_resolves_mass acc acc' :
  rtc resolves acc acc' → (mass acc'.1 ≤ mass acc.1)%nat.
Proof.
  induction 1 as [|x y z Hxy _ IH]; [done|].
  destruct (resolves_mass _ _ Hxy) as (s1 & _ & Hm). lia.
Qed.

Lemma rtc_resolves_flag acc acc' :
  rtc resolves acc acc' → acc.2 = true → acc'.2 = true.
Proof.
  induction 1 as [|x y z Hxy _ IH]; [done|].
  intros _. apply IH. by destruct Hxy.
Qed.

(** The inner loop performs resolution steps with its [s1], which stays
    in the list. *)
Lemma resolve_body_steps s1 s2 acc :
  s1 ∈ acc.1 → s2 ∈ acc.1 →
  s1 ∈ (resolve_body s1 s2 acc).1 ∧ rtc resolves acc (resolve_body s1 s2 acc).
Proof.
  intros H1 H2. unfold resolve_body.
  destruct (decide (s1 = s2)) as [|Hne]; [done|].
  destruct (decide (cells s1 ⊆ cells s2)) as [Hsub|]; [|done].
  destruct acc as [K ch]. simpl in *. split.
  - apply remove_first_other; [set_solver|done].
  - apply rtc_once. by constructor.
Qed.

Lemma for_in_resolve_body s1 acc n i :
  s1 ∈ acc.1 →
  rtc resolves acc (for_in fst (resolve_body s1) n i acc).
Proof.
  intros H1.
  apply (for_in_inv fst (resolve_body s1)
           (λ a, s1 ∈ a.1 ∧ rtc resolves acc a)); [|done].
  intros s2 a [Ha Hr] H2.
  destruct (resolve_body_steps s1 s2 a Ha H2) as [? ?].
  split; [done|]. by etrans.
Qed.

Lemma resolve_inner_steps s1 acc :
  s1 ∈ acc.1 → rtc resolves acc (resolve_inner s1 acc).
Proof. apply for_in_resolve_body. Qed.

Lemma for_in_resolve_inner acc n i :
  rtc resolves acc (for_in fst resolve_inner n i acc).
Proof.
  apply (for_in_inv fst resolve_inner (λ a, rtc resolves acc a)); [|done].
  intros s1 a Hr H1. etrans; [done|]. by apply resolve_inner_steps.
Qed.

Lemma combine_steps acc : rtc resolves acc (combine acc).
Proof. apply for_in_resolve_inner. Qed.

(** Both loops stop because the iterator is exhausted: any larger
    budget gives the same result. *)
Lemma resolve_inner_exact s1 acc n :
  s1 ∈ acc.1 → (length acc.1 ≤ n)%nat →
  for_in fst (resolve_body s1) n 0 acc = resolve_inner s1 acc.
Proof.
  intros H1 Hn. unfold resolve_inner.
  set (P := λ a : list Sentence * bool, s1 ∈ a.1).
  assert (∀ k m i a, P a → (length a.1 ≤ k + i)%nat → (k ≤ m)%nat →
            for_in fst (resolve_body s1) m i a
            = for_in fst (resolve_body s1) k i a) as Hgen.
  { intros k. induction k as [|k IH]; intros m i a Ha Hk Hm.
    - destruct m; simpl; [done|].
      rewrite (lookup_ge_None_2 a.1 i); [done|lia].
    - destruct m as [|m]; [lia|]. simpl.
      destruct (a.1 !! i) as [s2|] eqn:Hs2; [|done].
      assert (s2 ∈ a.1) as H2 by by eapply list_elem_of_lookup_2.
      destruct (resolve_body_steps s1 s2 a Ha H2) as [Ha' Hr].
      apply IH; [done| |lia].
      rewrite (rtc_resolves_length _ _ Hr). lia. }
  apply Hgen; [done|lia|done].
Qed.

Lemma combine_exact acc n :
  (length acc.1 ≤ n)%nat → for_in fst resolve_inner n 0 acc = combine acc.
Proof.
  intros Hn. unfold combine.
  apply (for_in_budget fst resolve_inner); [|lia|done].
  intros s1 a H1. by apply rtc_resolves_length, resolve_inner_steps.
Qed.

(** ** Counting the mines of a set of cells *)

Lemma mines_in_empty g : mines_in g ∅ = 0.
Proof. unfold mines_in. rewrite filter_empty_L by apply _. by rewrite size_empty. Qed.

Lemma mines_in_union g X Y :
  X ## Y → mines_in g (X ∪ Y) = mines_in g X + mines_in g Y.
Proof.
  intros Hd. unfold mines_in.
  rewrite filter_union_L by apply _.
  rewrite size_union; [lia|]. by apply disjoint_filter.
Qed.

Lemma mines_in_singleton g c :
  mines_in g {[c]} = if mine_at g c then 1 else 0.
Proof.
  unfold mines_in. destruct (mine_at g c) eqn:Hc.
  - rewrite filter_singleton_True_L; [|done || apply _ ..]. by rewrite size_singleton.
  - rewrite filter_singleton_False_L; [|congruence || apply _ ..].
    by rewrite size_empty.
Qed.

Lemma mines_in_difference g X Y :
  Y ⊆ X → mines_in g (X ∖ Y) = mines_in g X - mines_in g Y.
Proof.
  intros Hsub.
  assert (X = Y ∪ X ∖ Y) as HX.
  { apply set_eq. intros x. rewrite elem_of_union, elem_of_difference.
    destruct (decide (x ∈ Y)); set_solver. }
  rewrite HX at 2. rewrite mines_in_union by set_solver. lia.
Qed.

Lemma mines_in_bounds g X : 0 ≤ mines_in g X ≤ Z.of_nat (size X).
Proof.
  unfold mines_in. split; [lia|]. apply Nat2Z.inj_le, subseteq_size.
  intros x. rewrite elem_of_filter. tauto.
Qed.

Lemma mines_in_remove g X c :
  c ∈ X →
  mines_in g (X ∖ {[c]}) = mines_in g X - (if mine_at g c then 1 else 0).
Proof.
  intros Hc. rewrite mines_in_difference by set_solver.
  by rewrite mines_in_singleton.
Qed.

Lemma mines_in_zero g X c : mines_in g X = 0 → c ∈ X → mine_at g c = false.
Proof.
  intros H0 Hc. pose proof (mines_in_remove g X c Hc) as Hr.
  pose proof (mines_in_bounds g (X ∖ {[c]})).
  destruct (mine_at g c); [lia|done].
Qed.

Lemma mines_in_full g X c :
  mines_in g X = Z.of_nat (size X) → c ∈ X → mine_at g c = true.
Proof.
  intros Hf Hc. pose proof (mines_in_remove g X c Hc) as Hr.
  pose proof (mines_in_bounds g (X ∖ {[c]})) as Hb.
  rewrite size_difference, size_singleton in Hb by set_solver.
  assert (0 < size X)%nat.
  { destruct (decide (size X = 0%nat)) as [Hz%size_empty_inv|]; [|lia].
    set_solver. }
  destruct (mine_at g c); [done|lia].
Qed.

(** ** True sentences stay true *)

Lemma sentence_eq s1 s2 : cells s1 = cells s2 → count s1 = count s2 → s1 = s2.
Proof. destruct s1, s2; simpl; congruence. Qed.

Lemma sentence_mark_safe_true g c s :
  mine_at g c = false → true_sentence g s →
  true_sentence g (sentence_mark_safe c s).
Proof.
  unfold true_sentence, sentence_mark_safe. intros Hc Hs.
  case_decide; [|done]. simpl.
  rewrite mines_in_remove by done. rewrite Hc. lia.
Qed.

Lemma sentence_mark_mine_true g c s :
  mine_at g c = true → true_sentence g s →
  true_sentence g (sentence_mark_mine c s).
Proof.
  unfold true_sentence, sentence_mark_mine. intros Hc Hs.
  case_decide; [|done]. simpl.
  rewrite mines_in_remove by done. rewrite Hc. lia.
Qed.

Lemma difference_sentence_true g s1 s2 :
  cells s1 ⊆ cells s2 → true_sentence g s1 → true_sentence g s2 →
  true_sentence g (difference_sentence s1 s2).
Proof.
  unfold true_sentence, difference_sentence. intros Hsub H1 H2. simpl.
  rewrite mines_in_difference by done. lia.
Qed.

Lemma known_safes_safe g s c :
  true_sentence g s → c ∈ known_safes s → mine_at g c = false.
Proof.
  unfold true_sentence, known_safes. intros Hs Hc.
  case_decide as H0; [|by apply not_elem_of_empty in Hc].
  apply (mines_in_zero g (cells s)); [congruence|done].
Qed.

Lemma known_mines_mine g s c :
  true_sentence g s → c ∈ known_mines s → mine_at g c = true.
Proof.
  unfold true_sentence, known_mines. intros Hs Hc.
  case_decide as H0; [|by apply not_elem_of_empty in Hc].
  apply (mines_in_full g (cells s)); [congruence|done].
Qed.

Lemma known_safes_subseteq s : known_safes s ⊆ cells s.
Proof. unfold known_safes. case_decide; set_solver. Qed.

Lemma known_mines_subseteq s : known_mines s ⊆ cells s.
Proof. unfold known_mines. case_decide; set_solver. Qed.

(** ** Soundness of the marking methods *)

Lemma mark_safe_sound g st c :
  mine_at g c = false → sound g st → sound g (mark_safe st c).
Proof.
  intros Hc [Hm Hs Hk]. split; simpl; [done| |].
  - intros x [?| ->%elem_of_singleton]%elem_of_union; auto.
  - apply Forall_fmap. eapply Forall_impl; [done|].
    intros s. by apply sentence_mark_safe_true.
Qed.

Lemma mark_mine_sound g st c :
  mine_at g c = true → sound g st → sound g (mark_mine st c).
Proof.
  intros Hc [Hm Hs Hk]. split; simpl; [|done|].
  - intros x [?| ->%elem_of_singleton]%elem_of_union; auto.
  - apply Forall_fmap. eapply Forall_impl; [done|].
    intros s. by apply sentence_mark_mine_true.
Qed.

Lemma foldl_mark_safe_sound g l st :
  (∀ c, c ∈ l → mine_at g c = false) → sound g st →
  sound g (foldl mark_safe st l).
Proof.
  revert st. induction l as [|c l IH]; intros st Hl Hst; simpl; [done|].
  apply IH; [intros; apply Hl; by right|].
  apply mark_safe_sound; [apply Hl; by left|done].
Qed.

Lemma foldl_mark_mine_sound g l st :
  (∀ c, c ∈ l → mine_at g c = true) → sound g st →
  sound g (foldl mark_mine st l).
Proof.
  revert st. induction l as [|c l IH]; intros st Hl Hst; simpl; [done|].
  apply IH; [intros; apply Hl; by right|].
  apply mark_mine_sound; [apply Hl; by left|done].
Qed.

Lemma set_knowledge_sound g st K :
  sound g st → Forall (true_sentence g) K → sound g (set_knowledge st K).
Proof. intros [Hm Hs Hk] HK. by split. Qed.

(** ** Soundness of subset resolution *)

Lemma resolves_true g acc acc' :
  resolves acc acc' →
  Forall (true_sentence g) acc.1 → Forall (true_sentence g) acc'.1.
Proof.
  destruct 1 as [K ch s1 s2 H1 H2 Hne Hsub]. simpl. intros HK.
  apply remove_first_Forall, Forall_app. split; [done|].
  rewrite Forall_forall in HK.
  apply Forall_singleton, difference_sentence_true; auto.
Qed.

Lemma rtc_resolves_true g acc acc' :
  rtc resolves acc acc' →
  Forall (true_sentence g) acc.1 → Forall (true_sentence g) acc'.1.
Proof.
  induction 1 as [|x y z Hxy _ IH]; [done|].
  intros Hx. by eapply IH, resolves_true.
Qed.

(** A resolution step between true, non-empty sentences yields a
    non-empty sentence and strictly less mass. *)
Lemma resolves_solid g acc acc' :
  resolves acc acc' → Forall (solid g) acc.1 →
  Forall (solid g) acc'.1 ∧ (mass acc'.1 < mass acc.1)%nat.
Proof.
  intros Hstep HK. split.
  - destruct Hstep as [K ch s1 s2 H1 H2 Hne Hsub]. simpl in *.
    apply remove_first_Forall, Forall_app. split; [done|].
    rewrite Forall_forall in HK.
    destruct (HK s1 H1) as [Ht1 _], (HK s2 H2) as [Ht2 _].
    apply Forall_singleton. split; [by apply difference_sentence_true|].
    simpl. intros Hempty. apply Hne.
    assert (cells s1 = cells s2) as Hcells.
    { apply set_eq. intros x. split; [apply Hsub|]. intros Hx.
      destruct (decide (x ∈ cells s1)) as [|Hn]; [done|].
      assert (x ∈ cells s2 ∖ cells s1) as Hd by by apply elem_of_difference.
      rewrite Hempty in Hd. by apply not_elem_of_empty in Hd. }
    apply sentence_eq; [done|].
    unfold true_sentence in *. congruence.
  - destruct (resolves_mass _ _ Hstep) as (s1 & H1 & Hm).
    rewrite Forall_forall in HK. destruct (HK s1 H1) as [_ Hne].
    assert (size (cells s1) ≠ 0%nat); [|lia].
    intros H0%size_empty_inv. by apply Hne, leibniz_equiv.
Qed.

(** ** The collecting pass and the cleanup *)

Lemma collect_spec K :
  collect K = (filter (λ s, is_empty_sentence s = true) K,
               ⋃ (known_safes <$> K), ⋃ (known_mines <$> K)).
Proof.
  unfold collect.
  assert (∀ r S M,
    foldl (λ '(remove_empty, safes, mines) sentence,
             (if is_empty_sentence sentence
              then remove_empty ++ [sentence] else remove_empty,
              safes ∪ known_safes sentence,
              mines ∪ known_mines sentence)) (r, S, M) K
    = (r ++ filter (λ s, is_empty_sentence s = true) K,
       S ∪ ⋃ (known_safes <$> K), M ∪ ⋃ (known_mines <$> K))) as Hgen.
  { induction K as [|s K IH]; intros r S M; simpl.
    - by rewrite app_nil_r, !union_empty_r_L.
    - rewrite IH, !(assoc_L (∪)). rewrite filter_cons.
      destruct (is_empty_sentence s); simpl; [|done].
      by rewrite <- app_assoc. }
  rewrite Hgen. by rewrite !union_empty_l_L.
Qed.

Lemma elem_of_cleanup K s :
  s ∈ cleanup (collect K).1.1 K ↔ s ∈ K ∧ is_empty_sentence s = false.
Proof.
  rewrite collect_spec. unfold cleanup. simpl.
  rewrite list_elem_of_filter, list_elem_of_filter.
  destruct (is_empty_sentence s); naive_solver.
Qed.

Lemma mass_filter (P : Sentence → Prop) `{!∀ s, Decision (P s)} K :
  (mass (filter P K) ≤ mass K)%nat.
Proof.
  induction K as [|s K IH]; [done|]. rewrite filter_cons.
  case_decide; rewrite !mass_cons; lia.
Qed.

(** ** Marking a whole set *)

Lemma mark_all_fst mark acc X :
  (mark_all mark acc X).1 = foldl mark acc.1 (set_iter X).
Proof.
  unfold mark_all. generalize (set_iter X). intros l. revert acc.
  induction l as [|c l IH]; intros [st ch]; simpl; [done|]. by rewrite IH.
Qed.

Lemma mark_all_snd mark acc X :
  (mark_all mark acc X).2 = acc.2 || bool_decide (X ≠ ∅).
Proof.
  unfold mark_all, set_iter.
  destruct (elements X) as [|c l] eqn:HX.
  - apply elements_empty_inv, leibniz_equiv in HX. subst X. simpl.
    rewrite bool_decide_false by naive_solver. by rewrite orb_false_r.
  - rewrite bool_decide_true, orb_true_r.
    + simpl. destruct acc as [st ch]. generalize (mark st c). clear.
      induction l as [|x l IH]; intros st; simpl; [done|]. apply IH.
    + intros ->. by rewrite elements_empty in HX.
Qed.

(** ** Marking never adds cells to the sentences *)

Lemma mass_fmap_le (f : Sentence → Sentence) K :
  (∀ s, size (cells (f s)) ≤ size (cells s))%nat →
  (mass (f <$> K) ≤ mass K)%nat.
Proof.
  intros Hf. induction K as [|s K IH]; [done|].
  rewrite fmap_cons, !mass_cons. specialize (Hf s). lia.
Qed.

Lemma mass_fmap_lt (f : Sentence → Sentence) K s :
  (∀ s, size (cells (f s)) ≤ size (cells s))%nat →
  s ∈ K → (size (cells (f s)) < size (cells s))%nat →
  (mass (f <$> K) < mass K)%nat.
Proof.
  intros Hf Hs Hlt. induction K as [|x K IH]; [by apply elem_of_nil in Hs|].
  rewrite fmap_cons, !mass_cons.
  pose proof (mass_fmap_le f K Hf). pose proof (Hf x).
  apply elem_of_cons in Hs as [->|Hs]; [lia|]. specialize (IH Hs). lia.
Qed.

Lemma size_remove (X : gset cell) c :
  c ∈ X → (size (X ∖ {[c]}) < size X)%nat.
Proof.
  intros Hc. apply subset_size. set_solver.
Qed.

Lemma sentence_mark_safe_size c s :
  (size (cells (sentence_mark_safe c s)) ≤ size (cells s))%nat.
Proof.
  unfold sentence_mark_safe. case_decide; [|done]. simpl.
  by apply Nat.lt_le_incl, size_remove.
Qed.

Lemma sentence_mark_mine_size c s :
  (size (cells (sentence_mark_mine c s)) ≤ size (cells s))%nat.
Proof.
  unfold sentence_mark_mine. case_decide; [|done]. simpl.
  by apply Nat.lt_le_incl, size_remove.
Qed.

Lemma foldl_mark_safe_mass l st :
  (mass (knowledge (foldl mark_safe st l)) ≤ mass (knowledge st))%nat.
Proof.
  revert st. induction l as [|c l IH]; intros st; simpl; [done|].
  etrans; [apply IH|]. apply mass_fmap_le, sentence_mark_safe_size.
Qed.

Lemma foldl_mark_mine_mass l st :
  (mass (knowledge (foldl mark_mine st l)) ≤ mass (knowledge st))%nat.
Proof.
  revert st. induction l as [|c l IH]; intros st; simpl; [done|].
  etrans; [apply IH|]. apply mass_fmap_le, sentence_mark_mine_size.
Qed.

Lemma foldl_mark_safe_mass_lt c l st s :
  s ∈ knowledge st → c ∈ cells s →
  (mass (knowledge (foldl mark_safe st (c :: l))) < mass (knowledge st))%nat.
Proof.
  intros Hs Hc. simpl.
  eapply Nat.le_lt_trans; [apply foldl_mark_safe_mass|].
  apply (mass_fmap_lt _ _ s); [apply sentence_mark_safe_size|done|].
  unfold sentence_mark_safe. rewrite decide_True by done. simpl.
  by apply size_remove.
Qed.

Lemma foldl_mark_mine_mass_lt c l st s :
  s ∈ knowledge st → c ∈ cells s →
  (mass (knowledge (foldl mark_mine st (c :: l))) < mass (knowledge st))%nat.
Proof.
  intros Hs Hc. simpl.
  eapply Nat.le_lt_trans; [apply foldl_mark_mine_mass|].
  apply (mass_fmap_lt _ _ s); [apply sentence_mark_mine_size|done|].
  unfold sentence_mark_mine. rewrite decide_True by done. simpl.
  by apply size_remove.
Qed.

(** ** One sweep of the inference loop *)


Lemma sweep_unfold st :
  sweep st =
    (set_knowledge (marked st)
       (combine (knowledge (marked st), marked_flag st)).1,
     (combine (knowledge (marked st), marked_flag st)).2).
Proof.
  unfold sweep, marked, marked_flag.
  rewrite (collect_spec (knowledge st)). simpl.
  set (st1 := set_knowledge st _).
  set (S := ⋃ (known_safes <$> knowledge st)).
  set (M := ⋃ (known_mines <$> knowledge st)).
  destruct (mark_all mark_mine _ M) as [st3 ch3] eqn:E.
  pose proof (f_equal fst E) as E1. pose proof (f_equal snd E) as E2.
  rewrite mark_all_fst in E1. rewrite mark_all_snd in E2.
  rewrite mark_all_fst in E1. rewrite mark_all_snd in E2.
  simpl in E1, E2. subst st3 ch3. by destruct (combine _).
Qed.

Lemma cleanup_sublist K s : s ∈ cleanup (collect K).1.1 K → s ∈ K.
Proof. rewrite elem_of_cleanup. tauto. Qed.

Lemma elem_of_safes_found K c :
  c ∈ ⋃ (known_safes <$> K) → ∃ s, s ∈ K ∧ c ∈ known_safes s.
Proof.
  rewrite elem_of_union_list. intros (X & HX & Hc).
  apply list_elem_of_fmap in HX as (s & -> & Hs). eauto.
Qed.

Lemma elem_of_mines_found K c :
  c ∈ ⋃ (known_mines <$> K) → ∃ s, s ∈ K ∧ c ∈ known_mines s.
Proof.
  rewrite elem_of_union_list. intros (X & HX & Hc).
  apply list_elem_of_fmap in HX as (s & -> & Hs). eauto.
Qed.

Lemma marked_sound g st : sound g st → sound g (marked st).
Proof.
  intros Hst. pose proof (sound_knowledge g st Hst) as HK.
  rewrite Forall_forall in HK. unfold marked.
  apply foldl_mark_mine_sound.
  { intros c [s [Hs Hc]]%elem_of_elements%elem_of_mines_found.
    eapply known_mines_mine; eauto. }
  apply foldl_mark_safe_sound.
  { intros c [s [Hs Hc]]%elem_of_elements%elem_of_safes_found.
    eapply known_safes_safe; eauto. }
  apply set_knowledge_sound; [done|].
  apply Forall_forall. intros s Hs%cleanup_sublist. auto.
Qed.

Lemma cleanup_mass K : (mass (cleanup (collect K).1.1 K) ≤ mass K)%nat.
Proof. apply mass_filter. Qed.

Lemma marked_mass st :
  (mass (knowledge (marked st)) ≤ mass (knowledge st))%nat.
Proof.
  unfold marked.
  etrans; [apply foldl_mark_mine_mass|].
  etrans; [apply foldl_mark_safe_mass|]. apply cleanup_mass.
Qed.

Lemma cleanup_keeps K s c :
  s ∈ K → c ∈ cells s → s ∈ cleanup (collect K).1.1 K.
Proof.
  intros Hs Hc. apply elem_of_cleanup. split; [done|].
  unfold is_empty_sentence. apply andb_false_intro1, bool_decide_eq_false.
  intros H0%size_empty_inv. set_solver.
Qed.

Lemma elements_nonempty (X : gset cell) :
  X ≠ ∅ → ∃ c l, set_iter X = c :: l ∧ c ∈ X.
Proof.
  intros HX. unfold set_iter. destruct (elements X) as [|c l] eqn:HE.
  - by apply elements_empty_inv, leibniz_equiv in HE.
  - exists c, l. split; [done|]. apply elem_of_elements. rewrite HE. by left.
Qed.

Lemma marked_mass_lt st :
  marked_flag st = true →
  (mass (knowledge (marked st)) < mass (knowledge st))%nat.
Proof.
  unfold marked_flag, marked. set (K := knowledge st).
  set (st1 := set_knowledge st _).
  intros Hflag.
  destruct (decide (⋃ (known_safes <$> K) = ∅)) as [HS|HS].
  - rewrite HS in *. rewrite bool_decide_false in Hflag by naive_solver.
    simpl in Hflag. apply bool_decide_eq_true in Hflag.
    destruct (elements_nonempty _ Hflag) as (c & l & -> & Hc).
    apply elem_of_mines_found in Hc as (s & Hs & Hc).
    apply known_mines_subseteq in Hc.
    unfold set_iter at 1. rewrite elements_empty. simpl foldl at 2.
    eapply Nat.lt_le_trans;
      [apply (foldl_mark_mine_mass_lt c l st1 s)|apply cleanup_mass]; [|done].
    by eapply cleanup_keeps.
  - destruct (elements_nonempty _ HS) as (c & l & -> & Hc).
    apply elem_of_safes_found in Hc as (s & Hs & Hc).
    apply known_safes_subseteq in Hc.
    eapply Nat.le_lt_trans; [apply foldl_mark_mine_mass|].
    eapply Nat.lt_le_trans;
      [apply (foldl_mark_safe_mass_lt c l st1 s)|apply cleanup_mass]; [|done].
    by eapply cleanup_keeps.
Qed.

Lemma marked_solid g st :
  sound g st → marked_flag st = false →
  Forall (solid g) (knowledge (marked st)).
Proof.
  intros Hst Hflag. pose proof (sound_knowledge g st Hst) as HK.
  rewrite Forall_forall in HK.
  unfold marked_flag in Hflag. apply orb_false_elim in Hflag as [HS HM].
  apply bool_decide_eq_false in HS, HM.
  apply dec_stable in HS, HM. unfold marked. rewrite HS, HM.
  unfold set_iter. rewrite elements_empty. simpl.
  apply Forall_forall. intros s [Hs He]%elem_of_cleanup.
  split; [by apply HK|]. intros Hcells.
  specialize (HK s Hs). unfold true_sentence in HK.
  rewrite Hcells, mines_in_empty in HK.
  unfold is_empty_sentence in He.
  rewrite Hcells, size_empty, HK in He. done.
Qed.

Lemma rtc_resolves_solid g acc acc' :
  rtc resolves acc acc' → Forall (solid g) acc.1 →
  Forall (solid g) acc'.1 ∧
  (acc = acc' ∨ (mass acc'.1 < mass acc.1)%nat).
Proof.
  induction 1 as [|x y z Hxy _ IH]; [by auto|].
  intros Hx. destruct (resolves_solid g _ _ Hxy Hx) as [Hy Hlt].
  destruct (IH Hy) as [Hz [->|Hlt']]; split; auto; right; lia.
Qed.

Lemma sweep_sound g st : sound g st → sound g (sweep st).1.
Proof.
  intros Hst. rewrite sweep_unfold. simpl.
  pose proof (marked_sound g st Hst) as Hm.
  apply set_knowledge_sound; [done|].
  apply (rtc_resolves_true g _ _ (combine_steps _)).
  apply (sound_knowledge g _ Hm).
Qed.

(** A sweep that sets [knowledge_changed] strictly lowers the mass. *)
Lemma sweep_mass g st :
  sound g st → (sweep st).2 = true →
  (mass (knowledge (sweep st).1) < mass (knowledge st))%nat.
Proof.
  intros Hst. rewrite sweep_unfold. simpl. intros Hch.
  pose proof (combine_steps (knowledge (marked st), marked_flag st)) as Hr.
  destruct (marked_flag st) eqn:Hflag.
  - eapply Nat.le_lt_trans; [apply (rtc_resolves_mass _ _ Hr)|].
    by apply marked_mass_lt.
  - destruct (rtc_resolves_solid g _ _ Hr (marked_solid g st Hst Hflag))
      as [_ [Heq|Hlt]].
    + rewrite <- Heq in Hch. done.
    + eapply Nat.lt_le_trans; [apply Hlt|]. apply marked_mass.
Qed.

(** ** The order in which a set is visited does not matter *)

Lemma foldl_commute_permutation {A B} (f : B → A → B) l1 l2 :
  (∀ b x y, f (f b x) y = f (f b y) x) →
  l1 ≡ₚ l2 → ∀ b, foldl f b l1 = foldl f b l2.
Proof.
  intros Hf. induction 1 as [|x l1 l2 _ IH|x y l|l1 l2 l3 _ IH1 _ IH2];
    intros b; simpl.
  - done.
  - apply IH.
  - by rewrite Hf.
  - by rewrite IH1.
Qed.

Lemma sentence_mark_safe_commute a b s :
  sentence_mark_safe a (sentence_mark_safe b s)
  = sentence_mark_safe b (sentence_mark_safe a s).
Proof.
  destruct (decide (a = b)) as [->|Hab]; [done|].
  unfold sentence_mark_safe.
  destruct (decide (a ∈ cells s)) as [Ha|Ha],
    (decide (b ∈ cells s)) as [Hb|Hb]; cbn [cells count];
    repeat first [ rewrite decide_True by set_solver
                 | rewrite decide_False by set_solver ];
    cbn [cells count]; try done.
  apply sentence_eq; cbn [cells count]; [set_solver|done].
Qed.

Lemma sentence_mark_mine_commute a b s :
  sentence_mark_mine a (sentence_mark_mine b s)
  = sentence_mark_mine b (sentence_mark_mine a s).
Proof.
  destruct (decide (a = b)) as [->|Hab]; [done|].
  unfold sentence_mark_mine.
  destruct (decide (a ∈ cells s)) as [Ha|Ha],
    (decide (b ∈ cells s)) as [Hb|Hb]; cbn [cells count];
    repeat first [ rewrite decide_True by set_solver
                 | rewrite decide_False by set_solver ];
    cbn [cells count]; try done.
  apply sentence_eq; cbn [cells count]; [set_solver|lia].
Qed.

Lemma mark_safe_commute st a b :
  mark_safe (mark_safe st a) b = mark_safe (mark_safe st b) a.
Proof.
  unfold mark_safe. cbn [height width moves_made mines safes knowledge].
  f_equal; [set_solver|].
  rewrite <- !list_fmap_compose. apply list_fmap_ext.
  intros _ s _. apply sentence_mark_safe_commute.
Qed.

Lemma mark_mine_commute st a b :
  mark_mine (mark_mine st a) b = mark_mine (mark_mine st b) a.
Proof.
  unfold mark_mine. cbn [height width moves_made mines safes knowledge].
  f_equal; [set_solver|].
  rewrite <- !list_fmap_compose. apply list_fmap_ext.
  intros _ s _. apply sentence_mark_mine_commute.
Qed.

(** X19. The two marking loops of a sweep reach the same engine
    whatever the order in which the sets [safes] and [mines] are
    visited. *)
Lemma marked_any_order st order_safes order_mines :
  order_safes ≡ₚ set_iter (⋃ (known_safes <$> knowledge st)) →
  order_mines ≡ₚ set_iter (⋃ (known_mines <$> knowledge st)) →
  foldl mark_mine
    (foldl mark_safe
       (set_knowledge st
          (cleanup (collect (knowledge st)).1.1 (knowledge st)))
       order_safes)
    order_mines
  = marked st.
Proof.
  intros HS HM. unfold marked.
  rewrite (foldl_commute_permutation mark_mine _ _ mark_mine_commute HM).
  by rewrite (foldl_commute_permutation mark_safe _ _ mark_safe_commute HS).
Qed.

(** ** The inference loop stops *)

Lemma inference_sound g fuel st st' :
  sound g st → inference fuel st = Some st' → sound g st'.
Proof.
  revert st. induction fuel as [|fuel IH]; intros st Hst; simpl; [done|].
  pose proof (sweep_sound g st Hst) as Hs.
  destruct (sweep st) as [st1 ch]. simpl in Hs.
  destruct ch; [by apply IH|]. by intros [= <-].
Qed.

Lemma inference_terminates g fuel st :
  sound g st → (mass (knowledge st) < fuel)%nat →
  is_Some (inference fuel st).
Proof.
  revert st. induction fuel as [|fuel IH]; intros st Hst Hfuel; [lia|].
  simpl. pose proof (sweep_sound g st Hst) as Hs.
  pose proof (sweep_mass g st Hst) as Hm.
  destruct (sweep st) as [st1 ch]. simpl in Hs, Hm.
  destruct ch; [|done]. apply IH; [done|]. specialize (Hm eq_refl). lia.
Qed.

(** More fuel does not change the result. *)
Lemma inference_fuel_mono fuel fuel' st st' :
  inference fuel st = Some st' → (fuel ≤ fuel')%nat →
  inference fuel' st = Some st'.
Proof.
  revert fuel' st. induction fuel as [|fuel IH]; intros fuel' st; [done|].
  intros Hi Hle. destruct fuel' as [|fuel']; [lia|]. simpl in *.
  destruct (sweep st) as [st1 ch]. destruct ch; [|done].
  apply IH; [done|lia].
Qed.

(** ** Geometry: the cells around a cell *)


Lemma count_mines_nil g : count_mines g [] = 0.
Proof. done. Qed.

Lemma count_mines_cons g x l :
  count_mines g (x :: l) = Z.b2z (mine_at g x) + count_mines g l.
Proof.
  unfold count_mines. rewrite filter_cons.
  destruct (mine_at g x); simpl; [|done]. lia.
Qed.

Lemma count_mines_nonneg g l : 0 ≤ count_mines g l.
Proof. unfold count_mines. lia. Qed.

Lemma count_mines_zero g l x :
  count_mines g l = 0 → x ∈ l → mine_at g x = false.
Proof.
  induction l as [|y l IH]; [by intros _ ?%elem_of_nil|].
  rewrite count_mines_cons. pose proof (count_mines_nonneg g l).
  intros H0 [->|Hx]%elem_of_cons.
  - destruct (mine_at g y); simpl in *; [lia|done].
  - apply IH; [|done]. destruct (mine_at g y); simpl in *; lia.
Qed.

Lemma mine_at_outside g x :
  ¬ (0 ≤ x.1 < g_height g ∧ 0 ≤ x.2 < g_width g) → mine_at g x = false.
Proof.
  intros Hx. unfold mine_at, in_bounds.
  destruct (bool_decide (0 ≤ x.1 < g_height g)) eqn:H1;
    destruct (bool_decide (0 ≤ x.2 < g_width g)) eqn:H2; try done.
  apply bool_decide_eq_true in H1, H2. tauto.
Qed.

Lemma range_three a : range (a - 1) (a + 2) = [a - 1; a; a + 1].
Proof.
  unfold range, seqZ. replace (a + 2 - (a - 1)) with 3 by lia.
  simpl.
  replace (Z.of_nat 0 + (a - 1)) with (a - 1) by lia.
  replace (Z.of_nat 1 + (a - 1)) with a by lia.
  by replace (Z.of_nat 2 + (a - 1)) with (a + 1) by lia.
Qed.

Lemma nearby_step g c cnt i j :
  (if decide ((i, j) = c) then cnt
   else if in_bounds (g_height g) (g_width g) (i, j)
        then (if board g i j then cnt + 1 else cnt)
        else cnt)
  = cnt + (if decide ((i, j) = c) then 0 else Z.b2z (mine_at g (i, j))).
Proof.
  case_decide; [lia|]. unfold mine_at. simpl.
  destruct (in_bounds _ _ _); simpl; [|lia]. destruct (board g i j); simpl; lia.
Qed.

(** [nearby_mines] adds up the eight cells around the cell. *)
Lemma nearby_mines_sum g r c :
  nearby_mines g (r, c) =
    Z.b2z (mine_at g (r - 1, c - 1)) + Z.b2z (mine_at g (r - 1, c))
    + Z.b2z (mine_at g (r - 1, c + 1))
    + Z.b2z (mine_at g (r, c - 1)) + Z.b2z (mine_at g (r, c + 1))
    + Z.b2z (mine_at g (r + 1, c - 1)) + Z.b2z (mine_at g (r + 1, c))
    + Z.b2z (mine_at g (r + 1, c + 1)).
Proof.
  unfold nearby_mines. simpl fst. simpl snd. rewrite !range_three. simpl.
  rewrite !nearby_step.
  rewrite (decide_True (P := (r, c) = (r, c))) by done.
  rewrite !decide_False by (intros [=]; lia). lia.
Qed.

Ltac outside_cells g :=
  repeat match goal with
  | |- context [mine_at g ?x] =>
      rewrite (mine_at_outside g x) by (simpl; lia)
  end.

Ltac distinct_cells :=
  repeat first
    [ apply NoDup_nil_2
    | apply NoDup_cons_2
    | apply not_elem_of_nil
    | apply not_elem_of_cons; split; [intros [=]; lia|] ].

(** The list of [get_surroundings] has no repetition and holds as many
    mines as [nearby_mines] counts, on a board of any size. *)
Lemma get_surroundings_mines g st c :
  height st = g_height g → width st = g_width g →
  NoDup (get_surroundings st c) ∧
  count_mines g (get_surroundings st c) = nearby_mines g c.
Proof.
  intros Hh Hw. destruct c as [r c]. rewrite nearby_mines_sum.
  unfold get_surroundings. rewrite Hh, Hw. simpl fst. simpl snd.
  repeat case_bool_decide; subst; simpl app;
    change (0 + 1) with 1; change (0 - 1) with (-1);
    (split; [distinct_cells|]);
    rewrite ?count_mines_cons, ?count_mines_nil;
    outside_cells g; simpl Z.b2z; lia.
Qed.

(** ** Recording an observation *)

Lemma mines_in_add g X x :
  x ∉ X → mines_in g (X ∪ {[x]}) = mines_in g X + Z.b2z (mine_at g x).
Proof.
  intros Hx. rewrite mines_in_union by set_solver.
  rewrite mines_in_singleton. by destruct (mine_at g x).
Qed.

Lemma add_safe_sound g st x :
  mine_at g x = false → sound g st → sound g (add_safe st x).
Proof.
  intros Hx [Hm Hs Hk]. split; simpl; [done| |done].
  intros y [?| ->%elem_of_singleton]%elem_of_union; auto.
Qed.

Lemma add_move_sound g st x : sound g st → sound g (add_move st x).
Proof. by intros [Hm Hs Hk]. Qed.

(** One surrounding cell: the engine stays sound and the gap between
    the count of [sent] and the mines among its cells shrinks by one
    when the cell is a mine. *)
Lemma observe_step g n sent st x :
  x ∉ cells sent → (n = 0 → mine_at g x = false) → sound g st →
  sound g (observe n (sent, st) x).2 ∧
  knowledge (observe n (sent, st) x).2 = knowledge st ∧
  height (observe n (sent, st) x).2 = height st ∧
  width (observe n (sent, st) x).2 = width st ∧
  cells (observe n (sent, st) x).1 ⊆ cells sent ∪ {[x]} ∧
  count (observe n (sent, st) x).1
    - mines_in g (cells (observe n (sent, st) x).1)
  = count sent - mines_in g (cells sent) - Z.b2z (mine_at g x).
Proof.
  intros Hxs Hzero Hst. unfold observe.
  destruct (decide (n = 0)) as [Hn|Hn].
  - rewrite (Hzero Hn). simpl Z.b2z.
    destruct (decide _) as [Hunknown|Hknown]; simpl.
    + split_and!; try done; [by apply add_safe_sound; auto| ].
      rewrite mines_in_add by done. rewrite (Hzero Hn). simpl. lia.
    + split_and!; try done; [set_solver|lia].
  - simpl. destruct (decide (x ∈ mines st)) as [Hm|Hm].
    + rewrite decide_False by tauto. simpl.
      rewrite (sound_mines g st Hst x Hm). simpl.
      split_and!; try done; [set_solver|lia].
    + destruct (decide (x ∈ safes st)) as [Hs|Hs].
      * rewrite decide_False by tauto.
        rewrite (sound_safes g st Hst x Hs). simpl.
        split_and!; try done; [set_solver|lia].
      * rewrite decide_True by tauto. simpl.
        rewrite mines_in_add by done. split_and!; try done. lia.
Qed.

Lemma foldl_observe g n l :
  ∀ sent st,
    NoDup l → (∀ x, x ∈ l → x ∉ cells sent) →
    (n = 0 → ∀ x, x ∈ l → mine_at g x = false) →
    sound g st →
    ∃ sent' st',
      foldl (observe n) (sent, st) l = (sent', st') ∧
      sound g st' ∧ knowledge st' = knowledge st ∧
      height st' = height st ∧ width st' = width st ∧
      count sent' - mines_in g (cells sent')
      = count sent - mines_in g (cells sent) - count_mines g l.
Proof.
  induction l as [|x l IH]; intros sent st Hnd Hfresh Hzero Hst.
  { exists sent, st. rewrite count_mines_nil. split_and!; [done..|lia]. }
  apply NoDup_cons in Hnd as [Hx Hnd].
  assert (x ∉ cells sent) as Hxs by (apply Hfresh; by left).
  destruct (observe_step g n sent st x) as (Hs1 & Hk1 & Hh1 & Hw1 & Hsub & Hgap1);
    [done|intros; apply Hzero; [done|by left]|done|].
  rewrite count_mines_cons.
  change (foldl (observe n) (sent, st) (x :: l))
    with (foldl (observe n) (observe n (sent, st) x) l).
  destruct (observe n (sent, st) x) as [sent1 st1]. simpl in *.
  destruct (IH sent1 st1) as
    (sent' & st' & Hf & Hs' & Hk' & Hh' & Hw' & Hgap); try done.
  { intros y Hy Hys. apply Hsub in Hys.
    apply elem_of_union in Hys as [Hys| ->%elem_of_singleton]; [|done].
    revert Hys. apply Hfresh. by right. }
  { intros ? y Hy. apply Hzero; [done|by right]. }
  exists sent', st'. split_and!; [done|done|congruence..|lia].
Qed.

Lemma record_observation_sound g st c n :
  height st = g_height g → width st = g_width g →
  mine_at g c = false → n = nearby_mines g c →
  sound g st →
  sound g (record_observation c n st) ∧
  height (record_observation c n st) = height st ∧
  width (record_observation c n st) = width st.
Proof.
  intros Hh Hw Hc Hn Hst. unfold record_observation.
  set (st1 := mark_safe (add_move st c) c).
  assert (sound g st1) as Hst1 by by apply mark_safe_sound, add_move_sound.
  destruct (get_surroundings_mines g st1 c Hh Hw) as [Hnd Hcount].
  destruct (foldl_observe g n (get_surroundings st1 c)
              {| cells := ∅; count := n |} st1)
    as (sent & st2 & -> & Hs2 & Hk2 & Hh2 & Hw2 & Hgap); try done.
  { intros Hn0 x Hx. apply (count_mines_zero g (get_surroundings st1 c));
      [congruence|done]. }
  simpl in Hgap. rewrite mines_in_empty in Hgap.
  split; [|simpl; by rewrite Hh2, Hw2].
  apply set_knowledge_sound; [done|].
  apply Forall_app. split; [rewrite Hk2; apply Hst1|].
  apply Forall_singleton. unfold true_sentence. lia.
Qed.

(** ** The size of the board never changes *)

Lemma foldl_mark_safe_dims l st :
  height (foldl mark_safe st l) = height st ∧
  width (foldl mark_safe st l) = width st.
Proof.
  revert st. induction l as [|c l IH]; intros st; simpl; [done|].
  by destruct (IH (mark_safe st c)).
Qed.

Lemma foldl_mark_mine_dims l st :
  height (foldl mark_mine st l) = height st ∧
  width (foldl mark_mine st l) = width st.
Proof.
  revert st. induction l as [|c l IH]; intros st; simpl; [done|].
  by destruct (IH (mark_mine st c)).
Qed.

Lemma sweep_dims st :
  height (sweep st).1 = height st ∧ width (sweep st).1 = width st.
Proof.
  rewrite sweep_unfold. simpl. unfold marked.
  destruct (foldl_mark_mine_dims
    (set_iter (⋃ (known_mines <$> knowledge st)))
    (foldl mark_safe
       (set_knowledge st (cleanup (collect (knowledge st)).1.1 (knowledge st)))
       (set_iter (⋃ (known_safes <$> knowledge st))))) as [-> ->].
  by destruct (foldl_mark_safe_dims
    (set_iter (⋃ (known_safes <$> knowledge st)))
    (set_knowledge st (cleanup (collect (knowledge st)).1.1 (knowledge st))))
    as [-> ->].
Qed.

Lemma inference_dims fuel st st' :
  inference fuel st = Some st' →
  height st' = height st ∧ width st' = width st.
Proof.
  revert st. induction fuel as [|fuel IH]; intros st; simpl; [done|].
  pose proof (sweep_dims st) as [Hh Hw].
  destruct (sweep st) as [st1 ch]. simpl in Hh, Hw.
  destruct ch.
  - intros [-> ->]%IH. done.
  - by intros [= <-].
Qed.

(** ** Engines reached by legal observations *)

Lemma init_sound g h w : sound g (init h w).
Proof. split; simpl; [set_solver|set_solver|constructor]. Qed.

Lemma reachable_sound g st :
  reachable g st →
  sound g st ∧ height st = g_height g ∧ width st = g_width g.
Proof.
  induction 1 as [|st c n fuel st' _ [Hs [Hh Hw]] Hlegal Hadd].
  { split; [apply init_sound|done]. }
  destruct Hlegal as (_ & Hc & _ & Hn).
  destruct (record_observation_sound g st c n Hh Hw Hc Hn Hs)
    as (Hs1 & Hh1 & Hw1).
  unfold add_knowledge in Hadd.
  destruct (inference_dims _ _ _ Hadd) as [Hh2 Hw2].
  split; [by eapply inference_sound|]. split; congruence.
Qed.

(** ** The sets of the engine only grow *)

Lemma grows_refl st : grows st st.
Proof. by unfold grows. Qed.

Lemma grows_trans st1 st2 st3 : grows st1 st2 → grows st2 st3 → grows st1 st3.
Proof.
  unfold grows. intros (? & ? & ?) (? & ? & ?).
  split_and!; by etrans.
Qed.

Lemma mark_mine_grows st c : grows st (mark_mine st c).
Proof. unfold grows. simpl. split_and!; [done| |done]. apply union_subseteq_l. Qed.

Lemma mark_safe_grows st c : grows st (mark_safe st c).
Proof. unfold grows. simpl. split_and!; [done|done|]. apply union_subseteq_l. Qed.

Lemma set_knowledge_grows st K : grows st (set_knowledge st K).
Proof. by unfold grows. Qed.

Lemma foldl_grows (mark : AI → cell → AI) l st :
  (∀ st c, grows st (mark st c)) → grows st (foldl mark st l).
Proof.
  intros Hmark. revert st. induction l as [|c l IH]; intros st; simpl.
  - apply grows_refl.
  - eapply grows_trans; [apply Hmark|apply IH].
Qed.

Lemma sweep_grows st : grows st (sweep st).1.
Proof.
  rewrite sweep_unfold. simpl. unfold marked.
  eapply grows_trans; [|apply set_knowledge_grows].
  eapply grows_trans; [|apply foldl_grows, mark_mine_grows].
  eapply grows_trans; [|apply foldl_grows, mark_safe_grows].
  apply set_knowledge_grows.
Qed.

Lemma inference_grows fuel st st' : inference fuel st = Some st' → grows st st'.
Proof.
  revert st. induction fuel as [|fuel IH]; intros st; simpl; [done|].
  pose proof (sweep_grows st) as Hs.
  destruct (sweep st) as [st1 ch]. simpl in Hs. destruct ch.
  - intros Hi. eapply grows_trans; [done|by apply IH].
  - by intros [= <-].
Qed.

Lemma observe_grows n sent st x : grows st (observe n (sent, st) x).2.
Proof.
  unfold observe. destruct (decide (n = 0)); [|apply grows_refl].
  destruct (decide _); [|apply grows_refl]. simpl.
  unfold grows. simpl. split_and!; [done|done|]. apply union_subseteq_l.
Qed.

Lemma foldl_observe_grows n l sent st :
  grows st (foldl (observe n) (sent, st) l).2.
Proof.
  revert sent st. induction l as [|x l IH]; intros sent st; [apply grows_refl|].
  change (foldl (observe n) (sent, st) (x :: l))
    with (foldl (observe n) (observe n (sent, st) x) l).
  pose proof (observe_grows n sent st x) as Hx.
  destruct (observe n (sent, st) x) as [sent1 st1].
  eapply grows_trans; [apply Hx|apply IH].
Qed.

Lemma record_observation_grows c n st : grows st (record_observation c n st).
Proof.
  unfold record_observation.
  set (st1 := mark_safe (add_move st c) c).
  pose proof (foldl_observe_grows n (get_surroundings st1 c)
                {| cells := ∅; count := n |} st1) as Hf.
  destruct (foldl _ _ _) as [sent st2]. simpl in Hf.
  eapply grows_trans; [|apply set_knowledge_grows].
  eapply grows_trans; [|apply Hf].
  subst st1. unfold grows. simpl.
  split_and!; [|done|]; apply union_subseteq_l.
Qed.

Lemma call_grows st st' : call st st' → grows st st'.
Proof.
  destruct 1 as [st c|st c|st fuel c n st' Hadd].
  - apply mark_mine_grows.
  - apply mark_safe_grows.
  - eapply grows_trans; [apply record_observation_grows|].
    by eapply inference_grows.
Qed.

(** C7. Across every sequence of calls to [add_knowledge], [mark_mine]
    and [mark_safe], the sets [moves_made], [mines] and [safes] only
    grow: a cell that is in one of them before the calls is still in it
    afterwards. *)
Theorem sets_only_grow st st' : rtc call st st' → grows st st'.
Proof.
  induction 1 as [|st1 st2 st3 Hcall _ IH]; [apply grows_refl|].
  eapply grows_trans; [by apply call_grows|done].
Qed.

Lemma sets_only_grow_witness :
  rtc call (init 2 2) (mark_safe (mark_mine (init 2 2) (1, 1)) (0, 0)) ∧
  grows (init 2 2) (mark_safe (mark_mine (init 2 2) (1, 1)) (0, 0)).
Proof.
  assert (rtc call (init 2 2) (mark_safe (mark_mine (init 2 2) (1, 1)) (0, 0)))
    as Hcalls.
  { eapply rtc_l; [apply call_mark_mine|]. apply rtc_once, call_mark_safe. }
  split; [exact Hcalls|]. exact (sets_only_grow _ _ Hcalls).
Defined.

(** ** Marking twice *)

Lemma sentence_mark_safe_twice c s :
  sentence_mark_safe c (sentence_mark_safe c s) = sentence_mark_safe c s.
Proof.
  unfold sentence_mark_safe. destruct (decide (c ∈ cells s)); simpl.
  - rewrite decide_False; [done|]. simpl. set_solver.
  - by rewrite decide_False.
Qed.

Lemma sentence_mark_mine_twice c s :
  sentence_mark_mine c (sentence_mark_mine c s) = sentence_mark_mine c s.
Proof.
  unfold sentence_mark_mine. destruct (decide (c ∈ cells s)); simpl.
  - rewrite decide_False; [done|]. simpl. set_solver.
  - by rewrite decide_False.
Qed.

(** C8. Calling [mark_safe(c)] twice in a row leaves the engine
    ([moves_made], [mines], [safes] and every sentence of [knowledge])
    as one call does, and likewise for [mark_mine(c)]. *)
Theorem mark_twice st c :
  mark_safe (mark_safe st c) c = mark_safe st c ∧
  mark_mine (mark_mine st c) c = mark_mine st c.
Proof.
  unfold mark_safe, mark_mine. simpl. split; f_equal.
  - set_solver.
  - rewrite <- list_fmap_compose. apply list_fmap_ext.
    intros _ s _. apply sentence_mark_safe_twice.
  - set_solver.
  - rewrite <- list_fmap_compose. apply list_fmap_ext.
    intros _ s _. apply sentence_mark_mine_twice.
Qed.

(** ** Move selection *)

(** Whatever the order in which the set is visited, the loop returns a
    cell of [safes − moves_made], or [None] when that set is empty. *)
Lemma first_unplayed_spec order st :
  (∀ c, c ∈ order ↔ c ∈ safes st) →
  match first_unplayed order st with
  | Some c => c ∈ safes st ∖ moves_made st
  | None => safes st ∖ moves_made st = ∅
  end.
Proof.
  intros Horder. unfold first_unplayed.
  destruct (list_find _ _) as [[i c]|] eqn:Hfind; simpl.
  - apply list_find_Some in Hfind as (Hi & Hc & _).
    apply elem_of_difference. split; [|done].
    apply Horder. by eapply list_elem_of_lookup_2.
  - apply list_find_None in Hfind. rewrite Forall_forall in Hfind.
    apply set_eq. intros c. rewrite elem_of_difference. split.
    + intros [Hs Hm]. destruct (Hfind c); [by apply Horder|done].
    + by intros ?%not_elem_of_empty.
Qed.

(** C9. [make_safe_move] returns a cell of [safes − moves_made] when
    there is one, and returns [None] exactly when that set is empty. *)
Theorem make_safe_move_spec st :
  match (make_safe_move st).1 with
  | Some c => c ∈ safes st ∖ moves_made st
  | None => safes st ∖ moves_made st = ∅
  end.
Proof.
  apply first_unplayed_spec. intros c. apply elem_of_elements.
Qed.

(** C10. [make_safe_move] and [make_random_move] leave the engine as
    it is: [moves_made], [mines], [safes] and [knowledge] are the same
    after the call as before. *)
Theorem moves_frame st :
  (make_safe_move st).2 = st ∧ (make_random_move st).2 = st.
Proof. done. Qed.


Lemma corner_engine_reachable : reachable corner_game corner_engine.
Proof.
  apply (reachable_add corner_game (init 2 2) (0, 0) 3 3%nat).
  - apply (reachable_init corner_game).
  - split_and!; [reflexivity|reflexivity|apply not_elem_of_empty|reflexivity].
  - vm_compute. reflexivity.
Defined.

Lemma twin_engine_reachable : reachable twin_game twin_engine.
Proof.
  apply (reachable_add twin_game
           {| height := 2; width := 2; moves_made := {[ (0, 0) ]};
              mines := ∅; safes := {[ (0, 0) ]};
              knowledge := [ {| cells := {[ (0, 1); (1, 0); (1, 1) ]};
                                count := 1 |} ] |}
           (0, 1) 1 2%nat).
  - apply (reachable_add twin_game (init 2 2) (0, 0) 1 2%nat).
    + apply (reachable_init twin_game).
    + split_and!; [reflexivity|reflexivity|apply not_elem_of_empty|reflexivity].
    + vm_compute. reflexivity.
  - split_and!; [reflexivity|reflexivity| |reflexivity].
    apply (bool_decide_unpack _). vm_compute. exact I.
  - vm_compute. reflexivity.
Defined.

(** ** Termination and soundness of [add_knowledge] *)

(** C1. For every board and every legal sequence of truthful
    observations, the [while knowledge_changed] loop of [add_knowledge]
    terminates: the call returns an engine once the fuel exceeds the
    number of cells held by the sentences at the start of the loop, and
    returns the same engine with any larger fuel. *)
Theorem add_knowledge_terminates g st c n :
  reachable g st → legal_observation g st c n →
  ∃ st', ∀ fuel,
    (mass (knowledge (record_observation c n st)) < fuel)%nat →
    add_knowledge fuel c n st = Some st'.
Proof.
  intros (Hs & Hh & Hw)%reachable_sound (_ & Hc & _ & Hn).
  destruct (record_observation_sound g st c n Hh Hw Hc Hn Hs) as (Hs1 & _).
  unfold add_knowledge.
  destruct (inference_terminates g
              (S (mass (knowledge (record_observation c n st))))
              _ Hs1 (Nat.lt_succ_diag_r _)) as [st' Hst'].
  exists st'. intros fuel Hfuel.
  eapply inference_fuel_mono; [done|lia].
Qed.

Lemma add_knowledge_terminates_witness :
  ∃ st', ∀ fuel,
    Nat.lt (mass (knowledge (record_observation (1, 0) 1 twin_engine))) fuel →
    add_knowledge fuel (1, 0) 1 twin_engine = Some st'.
Proof.
  apply (add_knowledge_terminates twin_game twin_engine (1, 0) 1).
  - exact twin_engine_reachable.
  - split_and!; [reflexivity|reflexivity| |reflexivity].
    apply (bool_decide_unpack _). vm_compute. exact I.
Defined.

(** C2. In every engine reached from a fresh one by truthful
    [add_knowledge] calls, no cell is both in [mines] and in [safes]. *)
Theorem mines_safes_disjoint g st : reachable g st → mines st ∩ safes st = ∅.
Proof.
  intros ([Hm Hs _] & _)%reachable_sound.
  apply set_eq. intros c. rewrite elem_of_intersection. split.
  - intros [H1%Hm H2%Hs]. congruence.
  - by intros ?%not_elem_of_empty.
Qed.

Lemma mines_safes_disjoint_witness :
  reachable corner_game corner_engine ∧
  mines corner_engine ∩ safes corner_engine = ∅.
Proof.
  split; [exact corner_engine_reachable|].
  exact (mines_safes_disjoint corner_game corner_engine
           corner_engine_reachable).
Defined.

(** ** The neighbourhood returned by [get_surroundings] *)

Ltac moore_cases :=
  repeat match goal with
  | H : _ ∈ _ :: _ |- _ => apply elem_of_cons in H as [[= -> ->]|H]
  | H : _ ∈ [] |- _ => by apply elem_of_nil in H
  end.

(** X2. On a board with at least two rows and two columns,
    [get_surroundings] returns exactly the Moore neighbourhood of an
    in-bounds cell. *)
Lemma get_surroundings_moore st c x :
  2 ≤ height st → 2 ≤ width st →
  in_bounds (height st) (width st) c = true →
  x ∈ get_surroundings st c ↔ moore (height st) (width st) c x.
Proof.
  intros Hh Hw Hc. destruct c as [r c], x as [i j].
  unfold in_bounds in Hc. simpl in Hc.
  apply andb_true_iff in Hc as [Hr%bool_decide_eq_true Hcc%bool_decide_eq_true].
  unfold moore, in_bounds, get_surroundings. simpl fst. simpl snd.
  rewrite andb_true_iff, !bool_decide_eq_true. split.
  - intros Hx.
    repeat case_bool_decide; simpl app in Hx; moore_cases;
      (split_and!; first [simpl; lia | intros [=]; lia]).
  - intros ((Hi & Hj) & Hne & Hdi & Hdj).
    assert (i = r - 1 ∨ i = r ∨ i = r + 1) as Hi' by lia.
    assert (j = c - 1 ∨ j = c ∨ j = c + 1) as Hj' by lia.
    assert (¬ (i = r ∧ j = c)) as Hne' by (intros [-> ->]; done).
    clear Hne.
    repeat case_bool_decide; simpl app; rewrite !elem_of_cons;
      destruct Hi' as [-> | [-> | ->]], Hj' as [-> | [-> | ->]];
      try (exfalso; simpl in *; lia);
      repeat first [ left; f_equal; lia | right ].
Qed.

(** C3 (the code departs from the claim). On a board of one row,
    [get_surroundings] returns cells that are off the board: for the
    cell (0,0) of a 1x3 board it returns (1,0), (1,1) and (0,1), of
    which only (0,1) is in its Moore neighbourhood. *)
Theorem get_surroundings_off_board :
  in_bounds 1 3 (0, 0) = true ∧
  get_surroundings (init 1 3) (0, 0) = [(1, 0); (1, 1); (0, 1)] ∧
  in_bounds 1 3 (1, 0) = false ∧
  ¬ (∀ x, x ∈ get_surroundings (init 1 3) (0, 0) ↔ moore 1 3 (0, 0) x).
Proof.
  split_and!; [done..|].
  intros H. destruct (H (1, 0)) as [Hm _].
  destruct Hm as [Hb _]; [by left|]. vm_compute in Hb. done.
Qed.

(** ** The cleanup step *)

Lemma is_empty_sentence_spec s :
  is_empty_sentence s = true ↔ cells s = ∅ ∧ count s = 0.
Proof.
  unfold is_empty_sentence.
  rewrite andb_true_iff, !bool_decide_eq_true. split.
  - intros [H0%size_empty_inv ?]. split; [by apply leibniz_equiv|done].
  - intros [-> ?]. by rewrite size_empty.
Qed.

Lemma cleanup_filter K :
  cleanup (collect K).1.1 K
  = filter (λ s, ¬ (cells s = ∅ ∧ count s = 0)) K.
Proof.
  rewrite collect_spec. unfold cleanup. simpl.
  set (R := filter (λ s, is_empty_sentence s = true) K).
  assert (∀ K', K' ⊆ K →
            filter (λ x, x ∉ R) K'
            = filter (λ s, ¬ (cells s = ∅ ∧ count s = 0)) K') as Hgen.
  { induction K' as [|s K' IH]; intros Hsub; [done|].
    rewrite !filter_cons, IH by set_solver.
    assert (s ∈ K) as Hs by (apply Hsub; by left).
    destruct (decide (s ∉ R)) as [Hn|Hin].
    - rewrite decide_True; [done|].
      rewrite <- is_empty_sentence_spec. intros He. apply Hn.
      subst R. by apply list_elem_of_filter.
    - rewrite decide_False; [done|].
      apply dec_stable in Hin. subst R.
      apply list_elem_of_filter in Hin as [He _].
      apply is_empty_sentence_spec in He. tauto. }
  by apply Hgen.
Qed.

(** C4 (as amended). The cleanup step removes from [knowledge] the
    sentences whose cell set is empty and whose count is 0, and only
    those: a sentence with no cell and a non-zero count stays, and the
    sentences that stay keep their order. *)
Theorem cleanup_drops_empty_zero K :
  cleanup (collect K).1.1 K
  = filter (λ s, ¬ (cells s = ∅ ∧ count s = 0)) K ∧
  ∀ s, s ∈ cleanup (collect K).1.1 K
       ↔ s ∈ K ∧ ¬ (cells s = ∅ ∧ count s = 0).
Proof.
  split; [apply cleanup_filter|].
  intros s. rewrite cleanup_filter, list_elem_of_filter. tauto.
Qed.

(** An empty sentence with a non-zero count stays in [knowledge]
    through the cleanup and through the whole loop. *)
Lemma cleanup_keeps_empty_nonzero :
  cells {| cells := ∅; count := 1 |} = ∅ ∧
  {| cells := ∅; count := 1 |}
    ∈ cleanup (collect [ {| cells := ∅; count := 1 |} ]).1.1
              [ {| cells := ∅; count := 1 |} ] ∧
  knowledge <$>
    inference 1 (set_knowledge (init 8 8) [ {| cells := ∅; count := 1 |} ])
  = Some [ {| cells := ∅; count := 1 |} ].
Proof.
  split_and!; [done| |by vm_compute].
  apply elem_of_cleanup. split; [by left|done].
Qed.

(** ** [make_random_move] *)

Lemma elem_of_board_cells st c :
  c ∈ (x ← range 0 (width st); y ← range 0 (height st); [(y, x)])
  ↔ in_bounds (height st) (width st) c = true.
Proof.
  destruct c as [i j]. unfold in_bounds, range. simpl.
  rewrite andb_true_iff, !bool_decide_eq_true.
  rewrite list_elem_of_bind. split.
  - intros (x & (y & Hc & Hy)%list_elem_of_bind & Hx).
    apply list_elem_of_singleton in Hc as [= -> ->].
    apply elem_of_seqZ in Hx, Hy. lia.
  - intros [Hi Hj]. exists j. split; [|apply elem_of_seqZ; lia].
    apply list_elem_of_bind. exists i.
    split; [by apply list_elem_of_singleton|apply elem_of_seqZ; lia].
Qed.

(** The part of the contract that holds: the move is an unplayed cell
    of the board that is not a known mine, and [None] is returned only
    when there is no such cell. *)
Lemma make_random_move_candidate st :
  match (make_random_move st).1 with
  | Some c =>
      in_bounds (height st) (width st) c = true ∧
      (c ∉ moves_made st) ∧ (c ∉ mines st)
  | None =>
      ∀ c, in_bounds (height st) (width st) c = true →
           c ∈ moves_made st ∨ c ∈ mines st
  end.
Proof.
  unfold make_random_move. simpl.
  destruct (list_find _ _) as [[k c]|] eqn:Hfind; simpl.
  - apply list_find_Some in Hfind as (Hk & [H1 H2] & _).
    split_and!; [|done..].
    apply elem_of_board_cells. by eapply list_elem_of_lookup_2.
  - apply list_find_None in Hfind. rewrite Forall_forall in Hfind.
    intros c Hc%elem_of_board_cells. specialize (Hfind c Hc).
    destruct (decide (c ∈ moves_made st)); [by left|].
    destruct (decide (c ∈ mines st)); [by right|]. tauto.
Qed.

(** C5 (the code departs from the claim). [make_random_move] is not
    random: it returns the first candidate in column-major order.  On
    a fresh 8x8 engine every cell is a candidate, among them (0,1),
    and the move is (0,0). *)
Theorem make_random_move_first :
  (make_random_move (init 8 8)).1 = Some (0, 0) ∧
  in_bounds 8 8 (0, 1) = true ∧
  (0, 1) ∉ moves_made (init 8 8) ∪ mines (init 8 8).
Proof.
  split_and!; [by vm_compute|done|]. simpl. set_solver.
Qed.

(** ** Subset resolution on a pair of sentences *)

Lemma for_in_step {A T} (get : T → list A) body n i s x :
  get s !! i = Some x →
  for_in get body (S n) i s = for_in get body n (S i) (body x s).
Proof. intros Hx. simpl. by rewrite Hx. Qed.

Lemma resolve_body_same s acc : resolve_body s s acc = acc.
Proof. unfold resolve_body. by rewrite decide_True. Qed.

Lemma resolve_body_subset s1 s2 acc :
  s1 ≠ s2 → cells s1 ⊆ cells s2 →
  resolve_body s1 s2 acc
  = (remove_first s2 (acc.1 ++ [difference_sentence s1 s2]), true).
Proof.
  intros Hne Hsub. unfold resolve_body.
  rewrite decide_False by done. by rewrite decide_True.
Qed.

Lemma resolve_body_other s1 s2 acc :
  ¬ cells s1 ⊆ cells s2 → resolve_body s1 s2 acc = acc.
Proof.
  intros Hsub. unfold resolve_body.
  destruct (decide (s1 = s2)); [done|]. by rewrite decide_False.
Qed.

Lemma remove_first_head s l : remove_first s (s :: l) = l.
Proof. simpl. by rewrite decide_True. Qed.

Lemma remove_first_tail s x l :
  x ≠ s → remove_first s (x :: l) = x :: remove_first s l.
Proof. intros Hne. simpl. by rewrite decide_False. Qed.

Lemma difference_sentence_cells_ne s1 s2 :
  cells s1 ⊂ cells s2 → difference_sentence s1 s2 ≠ s1.
Proof.
  intros [Hsub Hns] Heq. apply Hns. intros x Hx.
  destruct (decide (x ∈ cells s1)) as [|Hn]; [done|].
  assert (x ∈ cells (difference_sentence s1 s2)) as Hd
    by by apply elem_of_difference.
  by rewrite Heq in Hd.
Qed.

Lemma difference_sentence_not_subset s1 s2 :
  cells s1 ⊂ cells s2 → ¬ cells (difference_sentence s1 s2) ⊆ cells s1.
Proof.
  intros [Hsub Hns] Hd. apply Hns. intros x Hx.
  destruct (decide (x ∈ cells s1)) as [|Hn]; [done|].
  apply Hd. by apply elem_of_difference.
Qed.

Lemma combine_single s ch : combine ([s], ch) = ([s], ch).
Proof.
  unfold combine. simpl length.
  rewrite (for_in_step _ _ _ _ _ s) by done.
  unfold resolve_inner at 2. simpl length.
  rewrite (for_in_step _ _ _ _ _ s) by done.
  by rewrite resolve_body_same.
Qed.

(** The list holds [A] then [B], with the cells of [A] strictly
    inside those of [B]. *)
Lemma combine_pair A B ch :
  cells A ⊂ cells B →
  combine ([A; B], ch) = ([A; difference_sentence A B], true).
Proof.
  intros Hsub. pose proof Hsub as [Hsub1 Hsub2].
  assert (A ≠ B) as Hne by (intros ->; by apply Hsub2).
  unfold combine. simpl length.
  rewrite (for_in_step _ _ _ _ _ A) by done.
  assert (resolve_inner A ([A; B], ch)
          = ([A; difference_sentence A B], true)) as ->.
  { unfold resolve_inner. simpl length.
    rewrite (for_in_step _ _ _ _ _ A) by done. rewrite resolve_body_same.
    rewrite (for_in_step _ _ _ _ _ B) by done.
    rewrite resolve_body_subset by done. simpl.
    rewrite decide_False by done. by rewrite decide_True. }
  rewrite (for_in_step _ _ _ _ _ (difference_sentence A B)) by done.
  unfold resolve_inner. simpl length.
  rewrite (for_in_step _ _ _ _ _ A) by done.
  rewrite resolve_body_other by by apply difference_sentence_not_subset.
  rewrite (for_in_step _ _ _ _ _ (difference_sentence A B)) by done.
  by rewrite resolve_body_same.
Qed.

(** The list holds [B] then [A]. *)
Lemma combine_pair_rev A B ch :
  cells A ⊂ cells B → cells A ≠ ∅ →
  combine ([B; A], ch) = ([A; difference_sentence A B], true).
Proof.
  intros Hsub Hne0. pose proof Hsub as [Hsub1 Hsub2].
  assert (A ≠ B) as Hne by (intros ->; by apply Hsub2).
  unfold combine. simpl length.
  rewrite (for_in_step _ _ _ _ _ B) by done.
  assert (resolve_inner B ([B; A], ch) = ([B; A], ch)) as ->.
  { unfold resolve_inner. simpl length.
    rewrite (for_in_step _ _ _ _ _ B) by done. rewrite resolve_body_same.
    rewrite (for_in_step _ _ _ _ _ A) by done.
    by rewrite resolve_body_other. }
  rewrite (for_in_step _ _ _ _ _ A) by done.
  unfold resolve_inner. simpl length.
  rewrite (for_in_step _ _ _ _ _ B) by done.
  rewrite resolve_body_subset by done. cbn [fst app].
  rewrite remove_first_head.
  rewrite (for_in_step _ _ _ _ _ (difference_sentence A B)) by done.
  rewrite resolve_body_other; [done|].
  intros Hd. apply Hne0. apply set_eq. intros x. split; [|set_solver].
  intros Hx. specialize (Hd x Hx). simpl in Hd. set_solver.
Qed.

(** ** Subset resolution in a list of sentences *)

Lemma for_in_idle {A T} (get : T → list A) body n i s :
  (∀ x, x ∈ get s → body x s = s) → for_in get body n i s = s.
Proof.
  intros Hbody. revert i. induction n as [|n IH]; intros i; simpl; [done|].
  destruct (get s !! i) as [x|] eqn:Hx; [|done].
  rewrite Hbody by by eapply list_elem_of_lookup_2. apply IH.
Qed.

Lemma resolve_body_idle s1 s2 acc :
  ¬ resolvable s1 s2 → resolve_body s1 s2 acc = acc.
Proof.
  intros Hn. unfold resolve_body.
  destruct (decide (s1 = s2)); [done|].
  rewrite decide_False; [done|]. intros Hsub. by apply Hn.
Qed.

Lemma resolve_inner_idle s1 K ch :
  (∀ Y, Y ∈ K → ¬ resolvable s1 Y) → resolve_inner s1 (K, ch) = (K, ch).
Proof.
  intros Hn. apply for_in_idle. intros Y HY. apply resolve_body_idle.
  by apply Hn.
Qed.

(** Where no pair can be resolved the loop does nothing. *)
Lemma combine_idle K ch :
  (∀ X Y, X ∈ K → Y ∈ K → ¬ resolvable X Y) → combine (K, ch) = (K, ch).
Proof.
  intros Hn. apply for_in_idle. intros X HX. apply resolve_inner_idle.
  intros Y HY. by apply Hn.
Qed.

Lemma remove_first_app x l l' :
  x ∈ l → remove_first x (l ++ l') = remove_first x l ++ l'.
Proof.
  induction l as [|y l IH]; intros Hx; [by apply elem_of_nil in Hx|].
  cbn [remove_first app]. destruct (decide (y = x)); [done|].
  apply elem_of_cons in Hx as [->|Hx]; [done|]. by rewrite IH.
Qed.

(** Where no pair can be resolved no step of lines 335-341 is taken. *)
Lemma resolves_stuck K ch acc :
  (∀ X Y, X ∈ K → Y ∈ K → ¬ resolvable X Y) →
  rtc resolves (K, ch) acc → acc = (K, ch).
Proof.
  intros Hn Hr. apply rtc_inv in Hr as [<-|(acc' & Hstep & _)]; [done|].
  inversion Hstep as [K0 ch0 s1 s2 H1 H2 Hne Hsub]; subst.
  by destruct (Hn s1 s2 H1 H2).
Qed.

(** [A] and [B] are the only pair of [K] that can be resolved. *)
Section one_pair.
Context (K : list Sentence) (A B : Sentence).
Hypothesis (Hpair : resolvable A B).
Hypothesis (Honly : ∀ X Y, X ∈ K → Y ∈ K → resolvable X Y → X = A ∧ Y = B).

(** The inner loop with [s1 = A]: nothing happens until [s2] is [B];
    then [B] makes way for [B − A], and the loop goes on from there. *)
Lemma inner_one_pair ch n j j0 :
  A ∈ K → K !! j0 = Some B → (j ≤ j0)%nat → (j0 < j + n)%nat →
  rtc resolves (remove_first B K ++ [difference_sentence A B], true)
      (for_in fst (resolve_body A) n j (K, ch)).
Proof.
  intros HA HB. revert j.
  induction n as [|n IH]; intros j Hj Hn; [lia|].
  destruct (K !! j) as [x|] eqn:Hx.
  2:{ apply lookup_ge_None in Hx. apply lookup_lt_Some in HB. lia. }
  rewrite (for_in_step _ _ _ _ _ x) by done.
  assert (x ∈ K) as Hin by by eapply list_elem_of_lookup_2.
  destruct (decide (x = B)) as [->|HxB].
  - destruct Hpair as [Hne Hsub].
    rewrite resolve_body_subset by done. cbn [fst].
    rewrite remove_first_app by done.
    apply for_in_resolve_body. cbn [fst]. apply elem_of_app. left.
    by apply remove_first_other.
  - rewrite resolve_body_idle.
    + apply IH; [|lia]. destruct (decide (j = j0)) as [->|]; [congruence|lia].
    + intros Hr. by destruct (Honly A x HA Hin Hr).
Qed.

(** The outer loop: nothing happens until [s1] is [A]. *)
Lemma outer_one_pair ch n i i0 :
  K !! i0 = Some A → B ∈ K → (i ≤ i0)%nat → (i0 < i + n)%nat →
  rtc resolves (remove_first B K ++ [difference_sentence A B], true)
      (for_in fst resolve_inner n i (K, ch)).
Proof.
  intros HA [j0 HB]%list_elem_of_lookup. revert i.
  induction n as [|n IH]; intros i Hi Hn; [lia|].
  destruct (K !! i) as [x|] eqn:Hx.
  2:{ apply lookup_ge_None in Hx. apply lookup_lt_Some in HA. lia. }
  rewrite (for_in_step _ _ _ _ _ x) by done.
  assert (x ∈ K) as Hin by by eapply list_elem_of_lookup_2.
  destruct (decide (x = A)) as [->|HxA].
  - etrans; [|apply for_in_resolve_inner].
    apply (inner_one_pair ch _ 0 j0); [done|done|lia|].
    apply lookup_lt_Some in HB. cbn [fst]. lia.
  - rewrite resolve_inner_idle.
    + apply IH; [|lia]. destruct (decide (i = i0)) as [->|]; [congruence|lia].
    + intros Y HY Hr. by destruct (Honly x Y Hin HY Hr).
Qed.

Lemma combine_one_pair ch :
  A ∈ K → B ∈ K →
  rtc resolves (remove_first B K ++ [difference_sentence A B], true)
      (combine (K, ch)).
Proof.
  intros [i0 HA]%list_elem_of_lookup HB. unfold combine. cbn [fst].
  apply (outer_one_pair ch _ 0 i0); [done|done|lia|].
  apply lookup_lt_Some in HA. lia.
Qed.
End one_pair.

(** ** Sweeps that mark nothing, or one mine *)

Lemma sweep_quiet st :
  ⋃ (known_safes <$> knowledge st) = ∅ →
  ⋃ (known_mines <$> knowledge st) = ∅ →
  sweep st =
    (set_knowledge st
       (combine (cleanup (collect (knowledge st)).1.1 (knowledge st),
                 false)).1,
     (combine (cleanup (collect (knowledge st)).1.1 (knowledge st),
               false)).2).
Proof.
  intros HS HM. rewrite sweep_unfold. unfold marked, marked_flag.
  rewrite HS, HM. unfold set_iter. rewrite elements_empty. simpl foldl.
  rewrite bool_decide_false by naive_solver. done.
Qed.

Lemma sweep_one_mine st c :
  ⋃ (known_safes <$> knowledge st) = ∅ →
  ⋃ (known_mines <$> knowledge st) = {[ c ]} →
  sweep st =
    (set_knowledge
       (mark_mine (set_knowledge st
          (cleanup (collect (knowledge st)).1.1 (knowledge st))) c)
       (combine
          (sentence_mark_mine c <$>
             cleanup (collect (knowledge st)).1.1 (knowledge st),
           true)).1,
     (combine
        (sentence_mark_mine c <$>
           cleanup (collect (knowledge st)).1.1 (knowledge st),
         true)).2).
Proof.
  intros HS HM. rewrite sweep_unfold. unfold marked, marked_flag.
  rewrite HS, HM. unfold set_iter.
  rewrite elements_empty, elements_singleton. simpl foldl.
  rewrite bool_decide_false by naive_solver.
  rewrite bool_decide_true; [done|].
  intros H. assert (c ∈ (∅ : gset cell)) as Hc by (rewrite <- H; set_solver).
  by apply not_elem_of_empty in Hc.
Qed.

Lemma known_safes_nonzero s : count s ≠ 0 → known_safes s = ∅.
Proof. intros H. unfold known_safes. by rewrite decide_False. Qed.

Lemma known_mines_partial s :
  Z.of_nat (size (cells s)) ≠ count s → known_mines s = ∅.
Proof. intros H. unfold known_mines. by rewrite decide_False. Qed.

Lemma known_mines_full s :
  Z.of_nat (size (cells s)) = count s → known_mines s = cells s.
Proof. intros H. unfold known_mines. by rewrite decide_True. Qed.

Lemma size_two (c1 c2 : cell) : c1 ≠ c2 → size ({[ c1; c2 ]} : gset cell) = 2%nat.
Proof.
  intros H. rewrite size_union by set_solver. by rewrite !size_singleton.
Qed.

Lemma size_three (c1 c2 c3 : cell) :
  c1 ≠ c2 → c1 ≠ c3 → c2 ≠ c3 →
  size ({[ c1; c2; c3 ]} : gset cell) = 3%nat.
Proof.
  intros H12 H13 H23. rewrite size_union by set_solver.
  rewrite size_two by done. by rewrite size_singleton.
Qed.

Lemma cleanup_all K :
  Forall (λ s, cells s ≠ ∅) K → cleanup (collect K).1.1 K = K.
Proof.
  intros HK. rewrite cleanup_filter.
  induction HK as [|s K Hs HK IH]; [done|].
  rewrite filter_cons, decide_True by tauto. by rewrite IH.
Qed.

Lemma difference_no_cell s : difference_sentence no_cell s = s.
Proof.
  apply sentence_eq; simpl; [set_solver|lia].
Qed.

(** A sentence with cells followed by the empty sentence: the empty
    one is a subset of the other, which is re-derived unchanged and
    moves behind it. *)
Lemma combine_no_cell_second s ch :
  cells s ≠ ∅ → combine ([s; no_cell], ch) = ([no_cell; s], true).
Proof.
  intros Hs.
  assert (no_cell ≠ s) as Hne by (intros <-; done).
  assert (¬ cells s ⊆ cells no_cell) as Hsub.
  { intros H. apply Hs. simpl in H. set_solver. }
  assert (cells no_cell ⊆ cells s) as Hsub' by (simpl; set_solver).
  unfold combine. simpl length.
  rewrite (for_in_step _ _ _ _ _ s) by done.
  assert (resolve_inner s ([s; no_cell], ch) = ([s; no_cell], ch)) as ->.
  { unfold resolve_inner. simpl length.
    rewrite (for_in_step _ _ _ _ _ s) by done. rewrite resolve_body_same.
    rewrite (for_in_step _ _ _ _ _ no_cell) by done.
    by rewrite resolve_body_other. }
  rewrite (for_in_step _ _ _ _ _ no_cell) by done.
  unfold resolve_inner. simpl length.
  rewrite (for_in_step _ _ _ _ _ s) by done.
  rewrite resolve_body_subset by done. cbn [fst app].
  rewrite remove_first_head, difference_no_cell.
  rewrite (for_in_step _ _ _ _ _ s) by done.
  rewrite resolve_body_subset by done. cbn [fst app].
  rewrite remove_first_tail by done.
  rewrite remove_first_head, difference_no_cell. done.
Qed.

(** ** The example of subset resolution, sweep by sweep *)

Ltac sentence_fields :=
  unfold two_cells, three_cells, one_cell, no_cell; cbn [cells count].

Lemma union_list_two (X Y : gset cell) : ⋃ [X; Y] = X ∪ Y.
Proof. rewrite !union_list_cons, union_list_nil. set_solver. Qed.

Section example.
Context (c1 c2 c3 : cell).
Hypothesis (H12 : c1 ≠ c2) (H13 : c1 ≠ c3) (H23 : c2 ≠ c3).

Lemma two_cells_quiet :
  known_safes (two_cells c1 c2) = ∅ ∧ known_mines (two_cells c1 c2) = ∅.
Proof.
  split; [by apply known_safes_nonzero|].
  apply known_mines_partial. sentence_fields.
  rewrite size_two by done. lia.
Qed.

Lemma three_cells_quiet :
  known_safes (three_cells c1 c2 c3) = ∅ ∧
  known_mines (three_cells c1 c2 c3) = ∅.
Proof.
  split; [by apply known_safes_nonzero|].
  apply known_mines_partial. sentence_fields.
  rewrite size_three by done. lia.
Qed.

Lemma one_cell_mine :
  known_safes (one_cell c3) = ∅ ∧ known_mines (one_cell c3) = {[ c3 ]}.
Proof.
  split; [by apply known_safes_nonzero|].
  rewrite known_mines_full; [done|]. sentence_fields.
  by rewrite size_singleton.
Qed.

Lemma no_cell_quiet : known_safes no_cell = ∅ ∧ known_mines no_cell = ∅.
Proof.
  split; [done|]. rewrite known_mines_full; [done|]. sentence_fields.
  by rewrite size_empty.
Qed.

Lemma two_cells_nonempty : cells (two_cells c1 c2) ≠ ∅.
Proof. sentence_fields. set_solver. Qed.

Lemma two_three_strict :
  cells (two_cells c1 c2) ⊂ cells (three_cells c1 c2 c3).
Proof. sentence_fields. set_solver. Qed.

Lemma two_three_difference :
  difference_sentence (two_cells c1 c2) (three_cells c1 c2 c3) = one_cell c3.
Proof.
  apply sentence_eq; unfold difference_sentence; sentence_fields;
    [set_solver|lia].
Qed.

(** First sweep: nothing to mark; the pair is resolved. *)
Lemma example_sweep_1 st :
  sweep (set_knowledge st [two_cells c1 c2; three_cells c1 c2 c3])
  = (set_knowledge st [two_cells c1 c2; one_cell c3], true).
Proof.
  destruct two_cells_quiet as [Hs2 Hm2], three_cells_quiet as [Hs3 Hm3].
  rewrite sweep_quiet; cbn [knowledge set_knowledge].
  - rewrite cleanup_all.
    + rewrite combine_pair by apply two_three_strict.
      by rewrite two_three_difference.
    + repeat constructor; sentence_fields; set_solver.
  - rewrite !fmap_cons, fmap_nil, union_list_two, Hs2, Hs3. set_solver.
  - rewrite !fmap_cons, fmap_nil, union_list_two, Hm2, Hm3. set_solver.
Qed.

(** Second sweep: [{c3} = 1] makes [c3] a mine. *)
Lemma example_sweep_2 st :
  sweep (set_knowledge st [two_cells c1 c2; one_cell c3])
  = (set_knowledge (mark_mine (set_knowledge st []) c3)
       [no_cell; two_cells c1 c2], true).
Proof.
  destruct two_cells_quiet as [Hs2 Hm2], one_cell_mine as [Hs1 Hm1].
  rewrite (sweep_one_mine _ c3); cbn [knowledge set_knowledge].
  - rewrite cleanup_all by (repeat constructor; sentence_fields; set_solver).
    assert (sentence_mark_mine c3 <$> [two_cells c1 c2; one_cell c3]
            = [two_cells c1 c2; no_cell]) as ->.
    { rewrite !fmap_cons, fmap_nil. unfold sentence_mark_mine.
      rewrite decide_False by (sentence_fields; set_solver).
      rewrite decide_True by (sentence_fields; set_solver).
      do 2 f_equal. apply sentence_eq; sentence_fields; [set_solver|lia]. }
    rewrite combine_no_cell_second by apply two_cells_nonempty. done.
  - rewrite !fmap_cons, fmap_nil, union_list_two, Hs2, Hs1. set_solver.
  - rewrite !fmap_cons, fmap_nil, union_list_two, Hm2, Hm1. set_solver.
Qed.

(** Third sweep: the empty sentence is dropped and nothing changes. *)
Lemma example_sweep_3 st :
  sweep (set_knowledge st [no_cell; two_cells c1 c2])
  = (set_knowledge st [two_cells c1 c2], false).
Proof.
  destruct two_cells_quiet as [Hs2 Hm2], no_cell_quiet as [Hs0 Hm0].
  rewrite sweep_quiet; cbn [knowledge set_knowledge].
  - rewrite cleanup_filter, filter_cons.
    rewrite decide_False by (sentence_fields; tauto).
    rewrite filter_cons, decide_True
      by (intros [H _]; by apply two_cells_nonempty).
    rewrite filter_nil. by rewrite combine_single.
  - rewrite !fmap_cons, fmap_nil, union_list_two, Hs2, Hs0. set_solver.
  - rewrite !fmap_cons, fmap_nil, union_list_two, Hm2, Hm0. set_solver.
Qed.

Lemma example_inference st fuel :
  (3 ≤ fuel)%nat →
  inference fuel
    (set_knowledge st [two_cells c1 c2; three_cells c1 c2 c3])
  = Some (set_knowledge (mark_mine (set_knowledge st []) c3)
            [two_cells c1 c2]).
Proof.
  intros Hfuel. apply (inference_fuel_mono 3); [|done].
  cbn [inference]. rewrite example_sweep_1, example_sweep_2.
  by rewrite example_sweep_3.
Qed.

(** The same when the larger sentence comes first: the first sweep
    leaves the same list. *)
Lemma example_sweep_1_rev st :
  sweep (set_knowledge st [three_cells c1 c2 c3; two_cells c1 c2])
  = (set_knowledge st [two_cells c1 c2; one_cell c3], true).
Proof.
  destruct two_cells_quiet as [Hs2 Hm2], three_cells_quiet as [Hs3 Hm3].
  rewrite sweep_quiet; cbn [knowledge set_knowledge].
  - rewrite cleanup_all.
    + rewrite combine_pair_rev.
      * by rewrite two_three_difference.
      * apply two_three_strict.
      * apply two_cells_nonempty.
    + repeat constructor; sentence_fields; set_solver.
  - rewrite !fmap_cons, fmap_nil, union_list_two, Hs2, Hs3. set_solver.
  - rewrite !fmap_cons, fmap_nil, union_list_two, Hm2, Hm3. set_solver.
Qed.

Lemma example_inference_rev st fuel :
  (3 ≤ fuel)%nat →
  inference fuel
    (set_knowledge st [three_cells c1 c2 c3; two_cells c1 c2])
  = Some (set_knowledge (mark_mine (set_knowledge st []) c3)
            [two_cells c1 c2]).
Proof.
  intros Hfuel. apply (inference_fuel_mono 3); [|done].
  cbn [inference]. rewrite example_sweep_1_rev, example_sweep_2.
  by rewrite example_sweep_3.
Qed.
End example.


(** ** Subset resolution: the claim *)

Lemma set_knowledge_self st : set_knowledge st (knowledge st) = st.
Proof. by destruct st. Qed.

Lemma two_positions (K : list Sentence) i j A B :
  K !! i = Some A → K !! j = Some B → i ≠ j → length K = 2%nat →
  K = [A; B] ∨ K = [B; A].
Proof.
  intros Hi Hj Hij Hlen.
  destruct K as [|x [|y [|]]]; try done.
  destruct i as [|[|i]], j as [|[|j]]; try done;
    cbn in Hi, Hj; simplify_eq; auto.
Qed.


Ltac settle_pairs :=
  let X := fresh "X" in let Y := fresh "Y" in
  let HX := fresh "HX" in let HY := fresh "HY" in
  intros X Y HX HY;
  apply elem_of_cons in HX as [-> | HX%list_elem_of_singleton];
  apply elem_of_cons in HY as [-> | HY%list_elem_of_singleton];
  subst; apply (bool_decide_unpack _); vm_compute; exact I.




(** * Further properties of the code *)

(** ** [Minesweeper.nearby_mines] *)

(** X1. [nearby_mines] counts the mines among the eight cells around
    the cell that are on the board: the result is between 0 and 8 and
    does not depend on what the cell itself holds. *)
Theorem nearby_mines_around g c :
  nearby_mines g c = count_mines g (around c) ∧
  0 ≤ nearby_mines g c ≤ 8 ∧
  ∀ g', same_but c g g' → nearby_mines g' c = nearby_mines g c.
Proof.
  destruct c as [r c].
  assert (∀ g, nearby_mines g (r, c) = count_mines g (around (r, c))) as Hsum.
  { intros g0. rewrite nearby_mines_sum. unfold around. cbn [fst snd].
    rewrite !count_mines_cons, count_mines_nil. lia. }
  split_and!.
  - apply Hsum.
  - rewrite nearby_mines_sum.
    repeat match goal with
    | |- context [Z.b2z ?b] => destruct b; cbn [Z.b2z]
    end; lia.
  - rewrite nearby_mines_sum.
    repeat match goal with
    | |- context [Z.b2z ?b] => destruct b; cbn [Z.b2z]
    end; lia.
  - intros g' (Hh & Hw & Hb). rewrite !nearby_mines_sum.
    assert (∀ x, x ≠ (r, c) → mine_at g' x = mine_at g x) as Hm.
    { intros [i j] Hx. unfold mine_at. rewrite Hh, Hw. cbn [fst snd].
      by rewrite Hb. }
    rewrite !Hm by (intros [=]; lia). done.
Qed.

(** ** [MinesweeperAI.get_surroundings] *)

Lemma get_surroundings_moore_witness :
  (0, 0) ∈ get_surroundings (init 3 3) (1, 1) ↔ moore 3 3 (1, 1) (0, 0).
Proof.
  apply (get_surroundings_moore (init 3 3) (1, 1) (0, 0));
    [simpl; lia|simpl; lia|reflexivity].
Defined.

Ltac around_cases :=
  repeat match goal with
  | H : _ ∈ _ :: _ |- _ => apply elem_of_cons in H as [->|H]
  | H : _ ∈ [] |- _ => by apply elem_of_nil in H
  end.

(** X3. On a board of any size, for any cell, [get_surroundings]
    returns distinct cells taken from the eight around the cell, never
    the cell itself, and misses none of those that are on the board;
    so it holds as many mines as [nearby_mines] counts. *)
Theorem get_surroundings_any_board g st c :
  height st = g_height g → width st = g_width g →
  NoDup (get_surroundings st c) ∧
  (c ∉ get_surroundings st c) ∧
  (∀ x, x ∈ get_surroundings st c → x ∈ around c) ∧
  (∀ x, moore (height st) (width st) c x → x ∈ get_surroundings st c) ∧
  count_mines g (get_surroundings st c) = nearby_mines g c.
Proof.
  intros Hh Hw.
  destruct (get_surroundings_mines g st c Hh Hw) as [Hnd Hcount].
  split_and!; [done| | | |done].
  - destruct c as [r c]. unfold get_surroundings. cbn [fst snd].
    repeat case_bool_decide; simpl app;
      repeat (apply not_elem_of_cons; split; [intros [=]; lia|]);
      apply not_elem_of_nil.
  - destruct c as [r c]. intros x. unfold get_surroundings, around.
    cbn [fst snd].
    repeat case_bool_decide; subst; simpl app;
      change (0 + 1) with 1; change (0 - 1) with (-1);
      intros Hx; around_cases; rewrite !elem_of_cons; tauto.
  - destruct c as [r c]. intros [i j] ((Hi & Hj)%andb_true_iff & Hne & Hdi & Hdj).
    apply bool_decide_eq_true in Hi, Hj. cbn [fst snd] in *.
    assert (i = r - 1 ∨ i = r ∨ i = r + 1) as Hi' by lia.
    assert (j = c - 1 ∨ j = c ∨ j = c + 1) as Hj' by lia.
    assert (¬ (i = r ∧ j = c)) as Hne' by (intros [-> ->]; done).
    clear Hne. unfold get_surroundings. cbn [fst snd].
    repeat case_bool_decide; simpl app; rewrite !elem_of_cons;
      destruct Hi' as [-> | [-> | ->]], Hj' as [-> | [-> | ->]];
      try (exfalso; simpl in *; lia);
      repeat first [ left; f_equal; lia | right ].
Qed.

Lemma get_surroundings_any_board_witness :
  NoDup (get_surroundings (init 1 3) (0, 0)) ∧
  ((0, 0) ∉ get_surroundings (init 1 3) (0, 0)) ∧
  (∀ x, x ∈ get_surroundings (init 1 3) (0, 0) → x ∈ around (0, 0)) ∧
  (∀ x, moore 1 3 (0, 0) x → x ∈ get_surroundings (init 1 3) (0, 0)) ∧
  count_mines {| g_height := 1; g_width := 3; board := λ _ j, bool_decide (j = 1) |}
    (get_surroundings (init 1 3) (0, 0))
  = nearby_mines
      {| g_height := 1; g_width := 3; board := λ _ j, bool_decide (j = 1) |}
      (0, 0).
Proof.
  apply (get_surroundings_any_board
           {| g_height := 1; g_width := 3;
              board := λ _ j, bool_decide (j = 1) |}
           (init 1 3) (0, 0)); reflexivity.
Defined.

(** ** [Sentence] *)

(** X4. For a sentence that is true of the game, every cell of
    [known_safes()] is not a mine and every cell of [known_mines()] is
    a mine. *)
Theorem known_cells_sound g s :
  true_sentence g s →
  (∀ c, c ∈ known_safes s → mine_at g c = false) ∧
  (∀ c, c ∈ known_mines s → mine_at g c = true).
Proof.
  intros Hs. split; intros c Hc.
  - by eapply known_safes_safe.
  - by eapply known_mines_mine.
Qed.

Lemma known_cells_sound_witness :
  (∀ c, c ∈ known_safes {| cells := {[ (0, 1); (1, 0) ]}; count := 2 |} →
        mine_at corner_game c = false) ∧
  (∀ c, c ∈ known_mines {| cells := {[ (0, 1); (1, 0) ]}; count := 2 |} →
        mine_at corner_game c = true).
Proof.
  apply (known_cells_sound corner_game
           {| cells := {[ (0, 1); (1, 0) ]}; count := 2 |}).
  vm_compute. reflexivity.
Defined.

(** X5. Marking a cell in a true sentence as what it is in the game
    ([Sentence.mark_mine] for a mine, [Sentence.mark_safe] for a cell
    that is not) keeps the sentence true, removes the cell and keeps
    every other cell. *)
Theorem sentence_marks_keep_truth g s c :
  true_sentence g s →
  true_sentence g
    (if mine_at g c then sentence_mark_mine c s else sentence_mark_safe c s) ∧
  cells (if mine_at g c then sentence_mark_mine c s
         else sentence_mark_safe c s)
  = cells s ∖ {[ c ]}.
Proof.
  intros Hs. destruct (mine_at g c) eqn:Hc.
  - split; [by apply sentence_mark_mine_true|].
    unfold sentence_mark_mine. case_decide; cbn [cells]; set_solver.
  - split; [by apply sentence_mark_safe_true|].
    unfold sentence_mark_safe. case_decide; cbn [cells]; set_solver.
Qed.

Lemma sentence_marks_keep_truth_witness :
  true_sentence corner_game
    (if mine_at corner_game (0, 1)
     then sentence_mark_mine (0, 1)
            {| cells := {[ (0, 1); (1, 0) ]}; count := 2 |}
     else sentence_mark_safe (0, 1)
            {| cells := {[ (0, 1); (1, 0) ]}; count := 2 |}) ∧
  cells (if mine_at corner_game (0, 1)
         then sentence_mark_mine (0, 1)
                {| cells := {[ (0, 1); (1, 0) ]}; count := 2 |}
         else sentence_mark_safe (0, 1)
                {| cells := {[ (0, 1); (1, 0) ]}; count := 2 |})
  = cells {| cells := {[ (0, 1); (1, 0) ]}; count := 2 |} ∖ {[ (0, 1) ]}.
Proof.
  apply (sentence_marks_keep_truth corner_game
           {| cells := {[ (0, 1); (1, 0) ]}; count := 2 |} (0, 1)).
  vm_compute. reflexivity.
Defined.

(** X6. Subset resolution is sound: when two sentences are true of the
    game and the cells of the first are among those of the second, the
    sentence built from them is true of the game. *)
Theorem difference_sentence_sound g s1 s2 :
  true_sentence g s1 → true_sentence g s2 → cells s1 ⊆ cells s2 →
  true_sentence g (difference_sentence s1 s2) ∧
  0 ≤ count (difference_sentence s1 s2)
    ≤ Z.of_nat (size (cells (difference_sentence s1 s2))).
Proof.
  intros H1 H2 Hsub.
  pose proof (difference_sentence_true g s1 s2 Hsub H1 H2) as Hd.
  split; [done|]. rewrite Hd. apply mines_in_bounds.
Qed.

Lemma difference_sentence_sound_witness :
  true_sentence corner_game
    (difference_sentence {| cells := {[ (0, 1) ]}; count := 1 |}
       {| cells := {[ (0, 1); (1, 0) ]}; count := 2 |}) ∧
  0 ≤ count (difference_sentence {| cells := {[ (0, 1) ]}; count := 1 |}
               {| cells := {[ (0, 1); (1, 0) ]}; count := 2 |})
    ≤ Z.of_nat (size (cells
         (difference_sentence {| cells := {[ (0, 1) ]}; count := 1 |}
            {| cells := {[ (0, 1); (1, 0) ]}; count := 2 |}))).
Proof.
  apply (difference_sentence_sound corner_game
           {| cells := {[ (0, 1) ]}; count := 1 |}
           {| cells := {[ (0, 1); (1, 0) ]}; count := 2 |}).
  - vm_compute. reflexivity.
  - vm_compute. reflexivity.
  - apply (bool_decide_unpack _). vm_compute. exact I.
Defined.


Lemma open_engine_reachable : reachable open_game open_engine.
Proof.
  apply (reachable_add open_game (init 2 2) (0, 0) 0 4%nat).
  - apply (reachable_init open_game).
  - split_and!; [reflexivity|reflexivity|apply not_elem_of_empty|reflexivity].
  - vm_compute. reflexivity.
Defined.

(** ** What the engine knows is true *)

(** X7. In every engine reached by legal observations, every cell of
    [mines] is a mine of the game, no cell of [safes] is, and every
    sentence of [knowledge] counts the mines among its cells, so that
    [0 <= count <= len(cells)]. *)
Theorem reachable_engine_sound g st :
  reachable g st →
  (∀ c, c ∈ mines st → mine_at g c = true) ∧
  (∀ c, c ∈ safes st → mine_at g c = false) ∧
  (∀ s, s ∈ knowledge st →
     count s = mines_in g (cells s) ∧
     0 ≤ count s ≤ Z.of_nat (size (cells s))).
Proof.
  intros ([Hm Hs Hk] & _)%reachable_sound. split_and!; [done..|].
  rewrite Forall_forall in Hk. intros s Hin.
  specialize (Hk s Hin). unfold true_sentence in Hk.
  split; [done|]. rewrite Hk. apply mines_in_bounds.
Qed.

Lemma reachable_engine_sound_witness :
  (∀ c, c ∈ mines twin_engine → mine_at twin_game c = true) ∧
  (∀ c, c ∈ safes twin_engine → mine_at twin_game c = false) ∧
  (∀ s, s ∈ knowledge twin_engine →
     count s = mines_in twin_game (cells s) ∧
     0 ≤ count s ≤ Z.of_nat (size (cells s))).
Proof.
  exact (reachable_engine_sound twin_game twin_engine twin_engine_reachable).
Defined.

(** Neither the sweep nor the loop touches [moves_made]. *)
Lemma foldl_mark_safe_moves l st :
  moves_made (foldl mark_safe st l) = moves_made st.
Proof. revert st. induction l as [|c l IH]; intros st; simpl; [done|]. by rewrite IH. Qed.

Lemma foldl_mark_mine_moves l st :
  moves_made (foldl mark_mine st l) = moves_made st.
Proof. revert st. induction l as [|c l IH]; intros st; simpl; [done|]. by rewrite IH. Qed.

Lemma sweep_moves st : moves_made (sweep st).1 = moves_made st.
Proof.
  rewrite sweep_unfold. cbn [fst set_knowledge moves_made]. unfold marked.
  by rewrite foldl_mark_mine_moves, foldl_mark_safe_moves.
Qed.

Lemma inference_moves fuel st st' :
  inference fuel st = Some st' → moves_made st' = moves_made st.
Proof.
  revert st. induction fuel as [|fuel IH]; intros st; simpl; [done|].
  pose proof (sweep_moves st) as Hs.
  destruct (sweep st) as [st1 ch]. simpl in Hs. destruct ch.
  - intros ->%IH. done.
  - by intros [= <-].
Qed.

Lemma foldl_observe_moves n l sent st :
  moves_made (foldl (observe n) (sent, st) l).2 = moves_made st.
Proof.
  revert sent st. induction l as [|x l IH]; intros sent st; [done|].
  change (foldl (observe n) (sent, st) (x :: l))
    with (foldl (observe n) (observe n (sent, st) x) l).
  assert (moves_made (observe n (sent, st) x).2 = moves_made st) as Hx.
  { unfold observe. repeat case_decide; done. }
  destruct (observe n (sent, st) x) as [sent1 st1]. by rewrite IH.
Qed.

Lemma record_observation_moves c n st :
  moves_made (record_observation c n st) = moves_made st ∪ {[ c ]}.
Proof.
  unfold record_observation.
  set (st1 := mark_safe (add_move st c) c).
  pose proof (foldl_observe_moves n (get_surroundings st1 c)
                {| cells := ∅; count := n |} st1) as Hf.
  destruct (foldl _ _ _) as [sent st2]. simpl in Hf. simpl. by rewrite Hf.
Qed.

Lemma add_knowledge_sets fuel c n st st' :
  add_knowledge fuel c n st = Some st' →
  moves_made st' = moves_made st ∪ {[ c ]} ∧
  c ∈ safes st' ∧
  mines st ⊆ mines st' ∧ safes st ⊆ safes st'.
Proof.
  unfold add_knowledge. intros Hi.
  pose proof (inference_moves _ _ _ Hi) as Hm.
  pose proof (inference_grows _ _ _ Hi) as (_ & Hmines & Hsafes).
  pose proof (record_observation_grows c n st) as (_ & Hmines0 & Hsafes0).
  split_and!.
  - by rewrite Hm, record_observation_moves.
  - apply Hsafes. unfold record_observation.
    set (st1 := mark_safe (add_move st c) c).
    pose proof (foldl_observe_grows n (get_surroundings st1 c)
                  {| cells := ∅; count := n |} st1) as (_ & _ & Hf).
    destruct (foldl _ _ _) as [sent st2]. simpl in *.
    apply Hf. set_solver.
  - by etrans.
  - by etrans.
Qed.

(** With a count of 0 every surrounding cell that is not a known mine
    is put in [safes]. *)
Lemma foldl_observe_zero l sent st x :
  x ∈ l → x ∈ safes (foldl (observe 0) (sent, st) l).2 ∨ x ∈ mines st.
Proof.
  revert sent st. induction l as [|y l IH]; intros sent st Hx;
    [by apply elem_of_nil in Hx|].
  change (foldl (observe 0) (sent, st) (y :: l))
    with (foldl (observe 0) (observe 0 (sent, st) y) l).
  assert (mines (observe 0 (sent, st) y).2 = mines st ∧
          (y ∈ safes (observe 0 (sent, st) y).2 ∨ y ∈ mines st)) as [Hm Hy].
  { unfold observe. rewrite decide_True by done.
    destruct (decide _) as [[H1 H2]|Hn]; cbn [snd add_safe mines safes].
    - split; [done|]. left. set_solver.
    - split; [done|].
      destruct (decide (y ∈ safes st)); [by left|].
      destruct (decide (y ∈ mines st)); [by right|]. tauto. }
  pose proof (foldl_observe_grows 0 l (observe 0 (sent, st) y).1
                (observe 0 (sent, st) y).2) as (_ & _ & Hg).
  destruct (observe 0 (sent, st) y) as [sent1 st1]. cbn [fst snd] in *.
  apply elem_of_cons in Hx as [->|Hx].
  - destruct Hy as [Hy|Hy]; [left; by apply Hg|by right].
  - rewrite <- Hm. by apply IH.
Qed.

(** X13. After [add_knowledge(cell, count)] the cell is the one move
    added to [moves_made] and it is in [safes]; [mines] and [safes]
    keep what they held; and when the count is 0, every surrounding
    cell is in [safes] unless it was already in [mines]. *)
Theorem add_knowledge_records fuel c n st st' :
  add_knowledge fuel c n st = Some st' →
  moves_made st' = moves_made st ∪ {[ c ]} ∧
  c ∈ safes st' ∧
  mines st ⊆ mines st' ∧ safes st ⊆ safes st' ∧
  (n = 0 → ∀ x, x ∈ get_surroundings st c → x ∈ safes st' ∨ x ∈ mines st).
Proof.
  intros Hadd.
  destruct (add_knowledge_sets _ _ _ _ _ Hadd) as (H1 & H2 & H3 & H4).
  split_and!; [done..|]. intros -> x Hx.
  unfold add_knowledge in Hadd.
  pose proof (inference_grows _ _ _ Hadd) as (_ & _ & Hsafes).
  unfold record_observation in Hsafes.
  set (st1 := mark_safe (add_move st c) c) in *.
  pose proof (foldl_observe_zero (get_surroundings st1 c)
                {| cells := ∅; count := 0 |} st1 x Hx) as Hz.
  destruct (foldl _ _ _) as [sent st2]. cbn [snd set_knowledge safes] in *.
  destruct Hz as [Hz|Hz]; [left; by apply Hsafes|by right].
Qed.

Lemma add_knowledge_records_witness :
  moves_made open_engine = moves_made (init 2 2) ∪ {[ (0, 0) ]} ∧
  (0, 0) ∈ safes open_engine ∧
  mines (init 2 2) ⊆ mines open_engine ∧
  safes (init 2 2) ⊆ safes open_engine ∧
  (0 = 0 → ∀ x, x ∈ get_surroundings (init 2 2) (0, 0) →
             x ∈ safes open_engine ∨ x ∈ mines (init 2 2)).
Proof.
  apply (add_knowledge_records 4 (0, 0) 0 (init 2 2) open_engine).
  vm_compute. reflexivity.
Defined.


Lemma observes_moves_safes st st' :
  rtc observes st st' → moves_made st ⊆ safes st → moves_made st' ⊆ safes st'.
Proof.
  induction 1 as [|st1 st2 st3 (fuel & c & n & Hadd) _ IH]; [done|].
  intros H1. apply IH.
  destruct (add_knowledge_sets _ _ _ _ _ Hadd) as (-> & Hc & _ & Hs).
  apply union_subseteq. split; [by etrans|]. by apply singleton_subseteq_l.
Qed.

(** X8. In every engine reached from a fresh one by [add_knowledge]
    calls, legal or not, every move made is in [safes]. *)
Theorem moves_are_safes h w st :
  rtc observes (init h w) st → moves_made st ⊆ safes st.
Proof. intros Hr. by apply (observes_moves_safes _ _ Hr). Qed.

Lemma moves_are_safes_witness :
  rtc observes (init 2 2) open_engine ∧
  moves_made open_engine ⊆ safes open_engine.
Proof.
  assert (rtc observes (init 2 2) open_engine) as Hr.
  { apply rtc_once. exists 4%nat, (0, 0), 0. vm_compute. reflexivity. }
  split; [exact Hr|]. exact (moves_are_safes 2 2 open_engine Hr).
Defined.

(** ** Moves proposed to the player *)

(** X9. On an engine reached by legal observations, the cell returned
    by [make_safe_move] is not a mine of the game and was not played. *)
Theorem safe_move_is_safe g st c :
  reachable g st → (make_safe_move st).1 = Some c →
  mine_at g c = false ∧ c ∉ moves_made st.
Proof.
  intros ([_ Hs _] & _)%reachable_sound Hmove.
  assert (c ∈ safes st ∖ moves_made st) as [H1 H2]%elem_of_difference.
  { pose proof (first_unplayed_spec (set_iter (safes st)) st) as Hspec.
    unfold make_safe_move in Hmove. cbn [fst] in Hmove. rewrite Hmove in Hspec.
    apply Hspec. intros x. apply elem_of_elements. }
  split; [by apply Hs|done].
Qed.

Lemma safe_move_is_safe_witness :
  mine_at open_game (0, 1) = false ∧ (0, 1) ∉ moves_made open_engine.
Proof.
  apply (safe_move_is_safe open_game open_engine (0, 1)).
  - exact open_engine_reachable.
  - vm_compute. reflexivity.
Defined.

(** ** The size of [knowledge] *)

Lemma length_cleanup K : (length (cleanup (collect K).1.1 K) ≤ length K)%nat.
Proof. unfold cleanup. apply length_filter. Qed.

Lemma foldl_mark_safe_length l st :
  length (knowledge (foldl mark_safe st l)) = length (knowledge st).
Proof.
  revert st. induction l as [|c l IH]; intros st; simpl; [done|].
  rewrite IH. simpl. apply length_fmap.
Qed.

Lemma foldl_mark_mine_length l st :
  length (knowledge (foldl mark_mine st l)) = length (knowledge st).
Proof.
  revert st. induction l as [|c l IH]; intros st; simpl; [done|].
  rewrite IH. simpl. apply length_fmap.
Qed.

Lemma sweep_length st :
  (length (knowledge (sweep st).1) ≤ length (knowledge st))%nat.
Proof.
  rewrite sweep_unfold. cbn [fst set_knowledge knowledge].
  rewrite (rtc_resolves_length _ _ (combine_steps _)). cbn [fst].
  unfold marked. rewrite foldl_mark_mine_length, foldl_mark_safe_length.
  apply length_cleanup.
Qed.

Lemma inference_length fuel st st' :
  inference fuel st = Some st' →
  (length (knowledge st') ≤ length (knowledge st))%nat.
Proof.
  revert st. induction fuel as [|fuel IH]; intros st; simpl; [done|].
  pose proof (sweep_length st) as Hs.
  destruct (sweep st) as [st1 ch]. simpl in Hs. destruct ch.
  - intros Hi%IH. lia.
  - intros [= <-]. done.
Qed.

Lemma foldl_observe_knowledge n l sent st :
  knowledge (foldl (observe n) (sent, st) l).2 = knowledge st.
Proof.
  revert sent st. induction l as [|x l IH]; intros sent st; [done|].
  change (foldl (observe n) (sent, st) (x :: l))
    with (foldl (observe n) (observe n (sent, st) x) l).
  assert (knowledge (observe n (sent, st) x).2 = knowledge st) as Hx.
  { unfold observe. repeat case_decide; done. }
  destruct (observe n (sent, st) x) as [sent1 st1]. by rewrite IH.
Qed.

Lemma record_observation_length c n st :
  length (knowledge (record_observation c n st)) = S (length (knowledge st)).
Proof.
  unfold record_observation.
  set (st1 := mark_safe (add_move st c) c).
  pose proof (foldl_observe_knowledge n (get_surroundings st1 c)
                {| cells := ∅; count := n |} st1) as Hk.
  destruct (foldl _ _ _) as [sent st2]. cbn [snd] in Hk.
  cbn [set_knowledge knowledge]. rewrite length_app, Hk. subst st1. simpl.
  rewrite length_fmap. lia.
Qed.

(** X14. The inference loop never lengthens [knowledge]: subset
    resolution replaces a sentence by another, the cleanup only drops
    sentences.  So a call of [add_knowledge] adds at most one sentence. *)
Theorem knowledge_grows_by_one fuel c n st st' :
  add_knowledge fuel c n st = Some st' →
  (length (knowledge st') ≤ S (length (knowledge st)))%nat.
Proof.
  unfold add_knowledge. intros Hi%inference_length.
  by rewrite record_observation_length in Hi.
Qed.


Lemma knowledge_grows_by_one_witness :
  Nat.le (length (knowledge twin_engine))
         (S (length (knowledge twin_engine_before))).
Proof.
  apply (knowledge_grows_by_one 2 (0, 1) 1 twin_engine_before twin_engine).
  vm_compute. reflexivity.
Defined.

(** ** What a sweep adds to [safes] and [mines] *)

Lemma foldl_mark_safe_sets l st :
  safes (foldl mark_safe st l) = safes st ∪ list_to_set l ∧
  mines (foldl mark_safe st l) = mines st.
Proof.
  revert st. induction l as [|c l IH]; intros st; simpl.
  - split; [set_solver|done].
  - destruct (IH (mark_safe st c)) as [-> ->]. simpl. split; [set_solver|done].
Qed.

Lemma foldl_mark_mine_sets l st :
  mines (foldl mark_mine st l) = mines st ∪ list_to_set l ∧
  safes (foldl mark_mine st l) = safes st.
Proof.
  revert st. induction l as [|c l IH]; intros st; simpl.
  - split; [set_solver|done].
  - destruct (IH (mark_mine st c)) as [-> ->]. simpl. split; [set_solver|done].
Qed.

Lemma sweep_sets st :
  safes (sweep st).1 = safes st ∪ ⋃ (known_safes <$> knowledge st) ∧
  mines (sweep st).1 = mines st ∪ ⋃ (known_mines <$> knowledge st).
Proof.
  rewrite sweep_unfold. cbn [fst set_knowledge safes mines]. unfold marked.
  destruct (foldl_mark_mine_sets
              (set_iter (⋃ (known_mines <$> knowledge st)))
              (foldl mark_safe
                 (set_knowledge st
                    (cleanup (collect (knowledge st)).1.1 (knowledge st)))
                 (set_iter (⋃ (known_safes <$> knowledge st)))))
    as [-> ->].
  destruct (foldl_mark_safe_sets
              (set_iter (⋃ (known_safes <$> knowledge st)))
              (set_knowledge st
                 (cleanup (collect (knowledge st)).1.1 (knowledge st))))
    as [-> ->].
  unfold set_iter. rewrite !list_to_set_elements_L. done.
Qed.

(** X11. Direct resolution: when the loop returns, the cells of every
    sentence that had a count of 0 are in [safes], and the cells of
    every sentence that had as many cells as its count are in [mines]. *)
Theorem direct_resolution fuel st st' s :
  inference fuel st = Some st' → s ∈ knowledge st →
  (count s = 0 → cells s ⊆ safes st') ∧
  (Z.of_nat (size (cells s)) = count s → cells s ⊆ mines st').
Proof.
  destruct fuel as [|fuel]; [done|]. simpl. intros Hi Hs.
  destruct (sweep_sets st) as [Hsafes Hmines].
  assert (grows (sweep st).1 st') as (_ & Hgm & Hgs).
  { destruct (sweep st) as [st1 ch]. destruct ch.
    - by eapply inference_grows.
    - injection Hi as <-. apply grows_refl. }
  split; intros Hc.
  - etrans; [|apply Hgs]. rewrite Hsafes.
    etrans; [|apply union_subseteq_r].
    intros x Hx. apply elem_of_union_list. exists (known_safes s).
    split; [by apply list_elem_of_fmap_2|].
    unfold known_safes. by rewrite decide_True.
  - etrans; [|apply Hgm]. rewrite Hmines.
    etrans; [|apply union_subseteq_r].
    intros x Hx. apply elem_of_union_list. exists (known_mines s).
    split; [by apply list_elem_of_fmap_2|].
    unfold known_mines. by rewrite decide_True.
Qed.

Lemma direct_resolution_witness :
  (count {| cells := {[ (0, 0); (0, 1) ]}; count := 0 |} = 0 →
   cells {| cells := {[ (0, 0); (0, 1) ]}; count := 0 |}
   ⊆ safes {| height := 8; width := 8; moves_made := ∅; mines := ∅;
              safes := {[ (0, 0); (0, 1) ]}; knowledge := [] |}) ∧
  (Z.of_nat (size (cells {| cells := {[ (0, 0); (0, 1) ]}; count := 0 |}))
   = count {| cells := {[ (0, 0); (0, 1) ]}; count := 0 |} →
   cells {| cells := {[ (0, 0); (0, 1) ]}; count := 0 |}
   ⊆ mines {| height := 8; width := 8; moves_made := ∅; mines := ∅;
              safes := {[ (0, 0); (0, 1) ]}; knowledge := [] |}).
Proof.
  apply (direct_resolution 2
           (set_knowledge (init 8 8)
              [ {| cells := {[ (0, 0); (0, 1) ]}; count := 0 |} ])).
  - vm_compute. reflexivity.
  - left.
Defined.

(** ** The engine returned by the loop is a fixed point *)

Lemma rtc_resolves_unflagged acc acc' :
  rtc resolves acc acc' → acc'.2 = false → acc' = acc.
Proof.
  intros Hr Hflag. apply rtc_inv in Hr as [->|(y & Hstep & Hr)]; [done|].
  assert (y.2 = true) as Hy by by destruct Hstep.
  pose proof (rtc_resolves_flag _ _ Hr Hy). congruence.
Qed.

Lemma union_list_empty_sublist (f : Sentence → gset cell) K K' :
  K' ⊆ K → ⋃ (f <$> K) = ∅ → ⋃ (f <$> K') = ∅.
Proof.
  intros Hsub HK. apply set_eq. intros x. split; [|set_solver].
  intros (X & (s & -> & Hs)%list_elem_of_fmap & Hx)%elem_of_union_list.
  rewrite <- HK. apply elem_of_union_list. exists (f s).
  split; [|done]. apply list_elem_of_fmap_2. by apply Hsub.
Qed.

Lemma cleanup_idempotent K :
  cleanup (collect (cleanup (collect K).1.1 K)).1.1 (cleanup (collect K).1.1 K)
  = cleanup (collect K).1.1 K.
Proof.
  rewrite (cleanup_filter (cleanup _ K)), (cleanup_filter K).
  rewrite list_filter_filter. apply list_filter_iff. tauto.
Qed.

(** A sweep that leaves the flag down changed nothing but the cleanup,
    and running it again changes nothing at all. *)
Lemma sweep_unchanged st st' :
  sweep st = (st', false) →
  ⋃ (known_safes <$> knowledge st) = ∅ ∧
  ⋃ (known_mines <$> knowledge st) = ∅ ∧
  st' = set_knowledge st (cleanup (collect (knowledge st)).1.1 (knowledge st)) ∧
  combine (knowledge st', false) = (knowledge st', false).
Proof.
  rewrite sweep_unfold. intros [= Hst Hflag].
  pose proof (combine_steps (knowledge (marked st), marked_flag st)) as Hr.
  pose proof (rtc_resolves_unflagged _ _ Hr Hflag) as Hacc.
  assert (marked_flag st = false) as Hmf.
  { rewrite Hacc in Hflag. done. }
  rewrite Hmf in *.
  unfold marked_flag in Hmf. apply orb_false_elim in Hmf as [HS HM].
  apply bool_decide_eq_false in HS, HM. apply dec_stable in HS, HM.
  assert (marked st
          = set_knowledge st
              (cleanup (collect (knowledge st)).1.1 (knowledge st))) as Hm.
  { unfold marked. rewrite HS, HM. unfold set_iter.
    by rewrite elements_empty. }
  rewrite Hacc in Hst. cbn [fst] in Hst.
  rewrite set_knowledge_self in Hst. subst st'.
  split_and!; [done..|]. by rewrite Hm in Hacc |- *.
Qed.

Lemma sweep_fixed st st' : sweep st = (st', false) → sweep st' = (st', false).
Proof.
  intros (HS & HM & -> & Hc)%sweep_unchanged.
  cbn [knowledge set_knowledge] in Hc.
  assert (cleanup (collect (knowledge st)).1.1 (knowledge st) ⊆ knowledge st)
    as Hsub by (intros s; apply cleanup_sublist).
  rewrite sweep_quiet; cbn [knowledge set_knowledge].
  - rewrite cleanup_idempotent, Hc. done.
  - by eapply union_list_empty_sublist.
  - by eapply union_list_empty_sublist.
Qed.

(** The loop returns what its last sweep returned, with the flag down. *)
Lemma inference_last_sweep fuel st st' :
  inference fuel st = Some st' → ∃ st0, sweep st0 = (st', false).
Proof.
  revert st. induction fuel as [|fuel IH]; intros st; simpl; [done|].
  destruct (sweep st) as [st1 ch] eqn:Hs. destruct ch.
  - apply IH.
  - intros [= <-]. by exists st.
Qed.

(** X12. The engine returned by the inference loop is a fixed point: a
    further sweep leaves it as it is and does not set
    [knowledge_changed]. *)
Theorem inference_fixed_point fuel st st' :
  inference fuel st = Some st' → sweep st' = (st', false).
Proof.
  intros [st0 Hlast]%inference_last_sweep. by eapply sweep_fixed.
Qed.

Lemma inference_fixed_point_witness : sweep twin_engine = (twin_engine, false).
Proof.
  apply (inference_fixed_point 2 (record_observation (0, 1) 1 twin_engine_before)).
  vm_compute. reflexivity.
Defined.

(** ** At rest no sentence can be resolved *)

Lemma for_in_resolve_body_flag s1 acc n i :
  s1 ∈ acc.1 → acc.2 = true → (for_in fst (resolve_body s1) n i acc).2 = true.
Proof.
  intros H1 Hf. by apply (rtc_resolves_flag _ _ (for_in_resolve_body s1 acc n i H1)).
Qed.

(** The inner loop raises the flag when a sentence ahead of its index
    can be resolved with [s1]. *)
Lemma resolve_inner_hits s1 s2 K n j j0 :
  s1 ∈ K → K !! j0 = Some s2 → s1 ≠ s2 → cells s1 ⊆ cells s2 →
  (j ≤ j0)%nat → (j0 < j + n)%nat →
  (for_in fst (resolve_body s1) n j (K, false)).2 = true.
Proof.
  intros H1 H2 Hne Hsub. revert j.
  induction n as [|n IH]; intros j Hj Hn; [lia|].
  destruct (K !! j) as [x|] eqn:Hx.
  2:{ apply lookup_ge_None in Hx. apply lookup_lt_Some in H2. lia. }
  rewrite (for_in_step _ _ _ _ _ x) by done.
  destruct (decide (j = j0)) as [->|Hjj].
  - assert (x = s2) as -> by congruence.
    rewrite resolve_body_subset by done.
    apply for_in_resolve_body_flag; [|done]. cbn [fst].
    apply remove_first_other; [|done]. apply elem_of_app. by left.
  - assert (x ∈ K) as Hin by by eapply list_elem_of_lookup_2.
    destruct (resolve_body_steps s1 x (K, false) H1 Hin) as [H1' Hr].
    destruct (resolve_body s1 x (K, false)) as [K' ch] eqn:Hb.
    destruct ch.
    + by apply for_in_resolve_body_flag.
    + pose proof (rtc_resolves_unflagged _ _ Hr eq_refl) as [= ->].
      apply IH; lia.
Qed.

Lemma combine_hits s1 s2 K n i i0 j0 :
  K !! i0 = Some s1 → K !! j0 = Some s2 → s1 ≠ s2 → cells s1 ⊆ cells s2 →
  (i ≤ i0)%nat → (i0 < i + n)%nat →
  (for_in fst resolve_inner n i (K, false)).2 = true.
Proof.
  intros H1 H2 Hne Hsub. revert i.
  induction n as [|n IH]; intros i Hi Hn; [lia|].
  destruct (K !! i) as [x|] eqn:Hx.
  2:{ apply lookup_ge_None in Hx. apply lookup_lt_Some in H1. lia. }
  rewrite (for_in_step _ _ _ _ _ x) by done.
  assert (x ∈ K) as Hin by by eapply list_elem_of_lookup_2.
  pose proof (resolve_inner_steps x (K, false) Hin) as Hr.
  destruct (decide (i = i0)) as [->|Hii].
  - assert (x = s1) as -> by congruence.
    assert ((resolve_inner s1 (K, false)).2 = true) as Hflag.
    { unfold resolve_inner. cbn [fst].
      apply (resolve_inner_hits s1 s2 K _ 0 j0); try done; [lia|].
      apply lookup_lt_Some in H2. lia. }
    apply (rtc_resolves_flag _ _ (for_in_resolve_inner _ n (S i0))). done.
  - destruct (resolve_inner x (K, false)) as [K' ch] eqn:Hb. destruct ch.
    + by apply (rtc_resolves_flag _ _ (for_in_resolve_inner _ n (S i))).
    + pose proof (rtc_resolves_unflagged _ _ Hr eq_refl) as [= ->].
      apply IH; lia.
Qed.

Lemma combine_quiet K s1 s2 :
  combine (K, false) = (K, false) →
  s1 ∈ K → s2 ∈ K → cells s1 ⊆ cells s2 → s1 = s2.
Proof.
  intros Hc [i0 H1]%list_elem_of_lookup [j0 H2]%list_elem_of_lookup Hsub.
  destruct (decide (s1 = s2)) as [|Hne]; [done|].
  pose proof (combine_hits s1 s2 K (length K) 0 i0 j0 H1 H2 Hne Hsub) as Hf.
  unfold combine in Hc. cbn [fst] in Hc. rewrite Hc in Hf.
  apply lookup_lt_Some in H1. discriminate Hf; lia.
Qed.

(** X16. When the inference loop returns, [knowledge] is saturated: no
    sentence has a count of 0 or as many cells as its count while it
    still holds a cell, the empty sentence with count 0 is gone, and
    the cells of a sentence are never among those of a different one. *)
Theorem knowledge_saturated fuel st st' :
  inference fuel st = Some st' →
  (∀ s, s ∈ knowledge st' →
     known_safes s = ∅ ∧ known_mines s = ∅ ∧
     ¬ (cells s = ∅ ∧ count s = 0)) ∧
  (∀ s1 s2, s1 ∈ knowledge st' → s2 ∈ knowledge st' →
     cells s1 ⊆ cells s2 → s1 = s2).
Proof.
  intros [st0 Hfix%sweep_fixed]%inference_last_sweep.
  destruct (sweep_unchanged _ _ Hfix) as (HS & HM & Hst & Hc).
  split.
  - intros s Hs. split_and!.
    + apply set_eq. intros x. split; [|set_solver]. intros Hx.
      rewrite <- HS. apply elem_of_union_list. exists (known_safes s).
      split; [by apply list_elem_of_fmap_2|done].
    + apply set_eq. intros x. split; [|set_solver]. intros Hx.
      rewrite <- HM. apply elem_of_union_list. exists (known_mines s).
      split; [by apply list_elem_of_fmap_2|done].
    + rewrite Hst in Hs. cbn [knowledge set_knowledge] in Hs.
      rewrite cleanup_filter in Hs. by apply list_elem_of_filter in Hs as [? _].
  - intros s1 s2 H1 H2 Hsub. by eapply combine_quiet.
Qed.

Lemma knowledge_saturated_witness :
  (∀ s, s ∈ knowledge twin_engine →
     known_safes s = ∅ ∧ known_mines s = ∅ ∧
     ¬ (cells s = ∅ ∧ count s = 0)) ∧
  (∀ s1 s2, s1 ∈ knowledge twin_engine → s2 ∈ knowledge twin_engine →
     cells s1 ⊆ cells s2 → s1 = s2).
Proof.
  apply (knowledge_saturated 2 (record_observation (0, 1) 1 twin_engine_before)).
  vm_compute. reflexivity.
Defined.


(** ** Sentences only hold undetermined cells *)

Lemma fresh_pending st : fresh st → pending st.
Proof.
  intros Hf s c Hs Hc [H|H]%elem_of_union; by destruct (Hf s c Hs Hc).
Qed.

Lemma mark_safe_fresh st c : fresh st → fresh (mark_safe st c).
Proof.
  intros Hf s' x (s & -> & Hs)%list_elem_of_fmap Hx.
  cbn [mark_safe safes mines].
  assert (x ∈ cells s ∧ x ≠ c) as [Hxs Hne].
  { unfold sentence_mark_safe in Hx. case_decide; cbn [cells] in Hx; set_solver. }
  destruct (Hf s x Hs Hxs). set_solver.
Qed.

Lemma mark_mine_fresh st c : fresh st → fresh (mark_mine st c).
Proof.
  intros Hf s' x (s & -> & Hs)%list_elem_of_fmap Hx.
  cbn [mark_mine safes mines].
  assert (x ∈ cells s ∧ x ≠ c) as [Hxs Hne].
  { unfold sentence_mark_mine in Hx. case_decide; cbn [cells] in Hx; set_solver. }
  destruct (Hf s x Hs Hxs). set_solver.
Qed.

Lemma foldl_mark_mine_fresh l st : fresh st → fresh (foldl mark_mine st l).
Proof.
  revert st. induction l as [|c l IH]; intros st Hf; simpl; [done|].
  by apply IH, mark_mine_fresh.
Qed.

Lemma foldl_mark_safe_cells l st s' :
  s' ∈ knowledge (foldl mark_safe st l) →
  ∃ s, s ∈ knowledge st ∧ cells s' = cells s ∖ list_to_set l.
Proof.
  revert st s'. induction l as [|c l IH]; intros st s' Hs'; simpl in *.
  - exists s'. split; [done|set_solver].
  - apply IH in Hs' as (s1 & (s & -> & Hs)%list_elem_of_fmap & ->).
    exists s. split; [done|].
    unfold sentence_mark_safe. case_decide; cbn [cells]; set_solver.
Qed.

Lemma marked_fresh st : pending st → fresh (marked st).
Proof.
  intros Hp. unfold marked. apply foldl_mark_mine_fresh.
  intros s' x Hs' Hx.
  apply foldl_mark_safe_cells in Hs' as (s & Hs%cleanup_sublist & Hcells).
  cbn [set_knowledge knowledge] in Hs.
  destruct (foldl_mark_safe_sets
              (set_iter (⋃ (known_safes <$> knowledge st)))
              (set_knowledge st
                 (cleanup (collect (knowledge st)).1.1 (knowledge st))))
    as [-> ->].
  cbn [set_knowledge safes mines]. unfold set_iter in *.
  rewrite list_to_set_elements_L in *. rewrite Hcells in Hx.
  apply elem_of_difference in Hx as [Hxs Hx].
  specialize (Hp s x Hs Hxs). set_solver.
Qed.

Lemma resolves_cells acc acc' s' :
  resolves acc acc' → s' ∈ acc'.1 → ∃ s, s ∈ acc.1 ∧ cells s' ⊆ cells s.
Proof.
  destruct 1 as [K ch s1 s2 H1 H2 Hne Hsub]. cbn [fst].
  intros [Hs|Hs%list_elem_of_singleton]%remove_first_elem_of%elem_of_app.
  - by exists s'.
  - exists s2. split; [done|]. subst s'. cbn [difference_sentence cells].
    set_solver.
Qed.

Lemma rtc_resolves_cells acc acc' s' :
  rtc resolves acc acc' → s' ∈ acc'.1 → ∃ s, s ∈ acc.1 ∧ cells s' ⊆ cells s.
Proof.
  intros Hr. revert s'. induction Hr as [|x y z Hxy _ IH]; intros s' Hs'.
  - by exists s'.
  - apply IH in Hs' as (s1 & Hs1 & Hsub1).
    destruct (resolves_cells _ _ _ Hxy Hs1) as (s & Hs & Hsub).
    exists s. split; [done|]. by etrans.
Qed.

Lemma sweep_fresh st : pending st → fresh (sweep st).1.
Proof.
  intros Hf%marked_fresh. rewrite sweep_unfold.
  intros s' x Hs' Hx. cbn [fst set_knowledge knowledge safes mines] in *.
  destruct (rtc_resolves_cells _ _ _ (combine_steps _) Hs')
    as (s & Hs & Hsub).
  apply (Hf s x Hs). by apply Hsub.
Qed.

Lemma inference_fresh fuel st st' :
  pending st → inference fuel st = Some st' → fresh st'.
Proof.
  revert st. induction fuel as [|fuel IH]; intros st Hp; simpl; [done|].
  pose proof (sweep_fresh st Hp) as Hf.
  destruct (sweep st) as [st1 ch]. cbn [fst] in Hf. destruct ch.
  - by apply IH, fresh_pending.
  - by intros [= <-].
Qed.

(** One surrounding cell: what [observe] does to the sets and to the
    cells of the new sentence. *)
Lemma observe_sets n sent st x :
  knowledge (observe n (sent, st) x).2 = knowledge st ∧
  mines (observe n (sent, st) x).2 = mines st ∧
  (n ≠ 0 → safes (observe n (sent, st) x).2 = safes st ∧
     ∀ c, c ∈ cells (observe n (sent, st) x).1 →
          c ∈ cells sent ∨ ((c ∉ safes st) ∧ (c ∉ mines st))) ∧
  (n = 0 → count (observe n (sent, st) x).1 = count sent ∧
     cells sent ⊆ cells (observe n (sent, st) x).1 ∧
     safes (observe n (sent, st) x).2
     ⊆ safes st ∪ cells (observe n (sent, st) x).1).
Proof.
  unfold observe. destruct (decide (n = 0)) as [Hn|Hn].
  - destruct (decide _) as [[H1 H2]|Hkn];
      cbn [fst snd add_safe add_cell knowledge mines safes cells count].
    + split_and!; [done|done|tauto|]. intros _. split_and!; [done|set_solver..].
    + split_and!; [done|done|tauto|]. intros _. split_and!; [done|set_solver..].
  - cbn [fst snd]. split_and!; [done|done| |tauto]. intros _.
    split; [done|]. intros c.
    repeat case_decide; cbn [decr_count add_cell cells]; set_solver.
Qed.

(** The loop over the surrounding cells: the new sentence holds only
    cells that were undetermined, and with a count of 0 every cell that
    the loop adds to [safes] is in the new sentence. *)
Lemma foldl_observe_sets n l sent st :
  knowledge (foldl (observe n) (sent, st) l).2 = knowledge st ∧
  mines (foldl (observe n) (sent, st) l).2 = mines st ∧
  (n ≠ 0 → safes (foldl (observe n) (sent, st) l).2 = safes st ∧
     ∀ c, c ∈ cells (foldl (observe n) (sent, st) l).1 →
          c ∈ cells sent ∨ ((c ∉ safes st) ∧ (c ∉ mines st))) ∧
  (n = 0 → count (foldl (observe n) (sent, st) l).1 = count sent ∧
     cells sent ⊆ cells (foldl (observe n) (sent, st) l).1 ∧
     safes (foldl (observe n) (sent, st) l).2
     ⊆ safes st ∪ cells (foldl (observe n) (sent, st) l).1).
Proof.
  revert sent st. induction l as [|x l IH]; intros sent st.
  { cbn [foldl fst snd]. split_and!; [done|done| |].
    - intros _. split; [done|]. intros c Hc. by left.
    - intros _. split_and!; [done|set_solver..]. }
  change (foldl (observe n) (sent, st) (x :: l))
    with (foldl (observe n) (observe n (sent, st) x) l).
  destruct (observe_sets n sent st x) as (Hk1 & Hm1 & Hnz1 & Hz1).
  destruct (observe n (sent, st) x) as [sent1 st1]. cbn [fst snd] in *.
  destruct (IH sent1 st1) as (Hk & Hm & Hnz & Hz).
  split_and!.
  - congruence.
  - congruence.
  - intros Hn. destruct (Hnz Hn) as [Hs Hc], (Hnz1 Hn) as [Hs1 Hc1].
    split; [congruence|]. intros c Hcin.
    destruct (Hc c Hcin) as [Hin|Hnew].
    + by apply Hc1.
    + right. by rewrite <- Hs1, <- Hm1.
  - intros Hn.
    destruct (Hz Hn) as (Hcount & Hsub & Hs), (Hz1 Hn) as (Hcount1 & Hsub1 & Hs1).
    split_and!; [congruence|by etrans|].
    intros c Hc. apply Hs in Hc. apply elem_of_union in Hc as [Hc|Hc].
    + apply Hs1 in Hc. apply elem_of_union in Hc as [Hc|Hc].
      * apply elem_of_union. by left.
      * apply elem_of_union. right. by apply Hsub.
    + apply elem_of_union. by right.
Qed.

Lemma record_observation_pending c n st :
  fresh st → pending (record_observation c n st).
Proof.
  intros Hf. unfold record_observation.
  set (st1 := mark_safe (add_move st c) c).
  assert (fresh st1) as Hf1.
  { apply mark_safe_fresh. intros s x Hs Hx. by apply (Hf s x). }
  pose proof (foldl_observe_sets n (get_surroundings st1 c)
                {| cells := ∅; count := n |} st1) as Hr.
  destruct (foldl _ _ _) as [sent st2].
  cbn [fst snd cells count] in Hr. destruct Hr as (Hk & Hm & Hnz & Hz).
  destruct (decide (n = 0)) as [Hn|Hn].
  - destruct (Hz Hn) as (Hcount & _ & Hs).
    assert (known_safes sent = cells sent) as Hks.
    { unfold known_safes. rewrite decide_True; [done|lia]. }
    intros s x Hin Hx Hknown. cbn [set_knowledge knowledge safes mines] in *.
    apply elem_of_union_list. exists (known_safes sent).
    split; [apply list_elem_of_fmap_2, elem_of_app; right; by left|].
    rewrite Hks.
    apply elem_of_app in Hin as [Hin| ->%list_elem_of_singleton]; [|done].
    rewrite Hk in Hin. destruct (Hf1 s x Hin Hx) as [Hns Hnm].
    apply elem_of_union in Hknown as [Hx2|Hx2].
    + apply Hs in Hx2. apply elem_of_union in Hx2 as [?|?]; done.
    + by rewrite Hm in Hx2.
  - apply fresh_pending. destruct (Hnz Hn) as (Hs & Hcells).
    intros s x Hin Hx. cbn [set_knowledge knowledge safes mines] in *.
    rewrite Hs, Hm.
    apply elem_of_app in Hin as [Hin| ->%list_elem_of_singleton].
    + rewrite Hk in Hin. by apply (Hf1 s x).
    + destruct (Hcells x Hx) as [Hx0|?]; [|done].
      by apply not_elem_of_empty in Hx0.
Qed.

Lemma call_fresh st st' : call st st' → fresh st → fresh st'.
Proof.
  destruct 1 as [st c|st c|st fuel c n st' Hadd]; intros Hf.
  - by apply mark_mine_fresh.
  - by apply mark_safe_fresh.
  - eapply inference_fresh; [|exact Hadd]. by apply record_observation_pending.
Qed.

Lemma rtc_call_fresh st st' : rtc call st st' → fresh st → fresh st'.
Proof.
  induction 1 as [|st1 st2 st3 Hcall _ IH]; [done|].
  intros H1. by eapply IH, call_fresh.
Qed.

(** X15. In every engine reached from a fresh one by calls of
    [add_knowledge], [mark_mine] and [mark_safe], the sentences of
    [knowledge] hold only undetermined cells: no cell of a sentence is
    in [safes] or in [mines]. *)
Theorem sentences_hold_unknown_cells h w st :
  rtc call (init h w) st →
  ∀ s c, s ∈ knowledge st → c ∈ cells s → (c ∉ safes st) ∧ (c ∉ mines st).
Proof.
  intros Hr. apply (rtc_call_fresh _ _ Hr).
  intros s c Hs. by apply elem_of_nil in Hs.
Qed.

Lemma sentences_hold_unknown_cells_witness :
  ((1, 0) ∉ safes twin_engine) ∧ ((1, 0) ∉ mines twin_engine).
Proof.
  apply (sentences_hold_unknown_cells 2 2 twin_engine) with (s := twin_sentence).
  - eapply rtc_l; [apply (call_add_knowledge (init 2 2) 2 (0, 0) 1
                            twin_engine_before); vm_compute; reflexivity|].
    apply rtc_once.
    apply (call_add_knowledge twin_engine_before 2 (0, 1) 1 twin_engine).
    vm_compute. reflexivity.
  - apply (bool_decide_unpack _). vm_compute. exact I.
  - apply (bool_decide_unpack _). vm_compute. exact I.
Defined.


(** ** The scan of [make_random_move] *)

Lemma sorted_of_lookup {A} (R : relation A) (l : list A) :
  (∀ i j x y, l !! i = Some x → l !! j = Some y → (i < j)%nat → R x y) →
  StronglySorted R l.
Proof.
  induction l as [|a l IH]; intros Hl; constructor.
  - apply IH. intros i j x y Hi Hj Hij. apply (Hl (S i) (S j)); [done..|lia].
  - apply Forall_forall. intros y [j Hj]%list_elem_of_lookup.
    apply (Hl 0%nat (S j)); [done..|lia].
Qed.

Lemma sorted_lookup {A} (R : relation A) (l : list A) i j x y :
  StronglySorted R l → l !! i = Some x → l !! j = Some y → (i < j)%nat → R x y.
Proof.
  intros Hl. revert i j. induction Hl as [|a l Hl IH Ha]; intros i j Hi Hj Hij.
  { by rewrite lookup_nil in Hi. }
  destruct j as [|j]; [lia|]. destruct i as [|i]; simpl in *.
  - injection Hi as ->. rewrite Forall_forall in Ha. apply Ha.
    by eapply list_elem_of_lookup_2.
  - apply (IH i j); [done..|lia].
Qed.

Lemma range_sorted a b : StronglySorted Z.lt (range a b).
Proof.
  apply sorted_of_lookup. unfold range.
  intros i j x y [-> _]%lookup_seqZ [-> _]%lookup_seqZ Hij. lia.
Qed.

Lemma column_sorted x ys :
  StronglySorted Z.lt ys →
  StronglySorted scanned_before (y ← ys; [(y, x)]).
Proof.
  induction 1 as [|y ys Hys IH Hy]; csimpl; constructor; [done|].
  apply Forall_forall. intros [y' x'] (y0 & [= -> ->]%list_elem_of_singleton & Hin)%list_elem_of_bind.
  rewrite Forall_forall in Hy. right. simpl. split; [done|]. by apply Hy.
Qed.

Lemma columns_sorted xs ys :
  StronglySorted Z.lt xs → StronglySorted Z.lt ys →
  StronglySorted scanned_before (x ← xs; y ← ys; [(y, x)]).
Proof.
  intros Hxs Hys. induction Hxs as [|x xs Hxs IH Hx]; csimpl; [constructor|].
  apply StronglySorted_app_2; [|by apply column_sorted|done].
  intros [y1 x1] [y2 x2]
    (y0 & [= -> ->]%list_elem_of_singleton & _)%list_elem_of_bind
    (x0 & (y3 & [= -> ->]%list_elem_of_singleton & _)%list_elem_of_bind & Hx0)%list_elem_of_bind.
  rewrite Forall_forall in Hx. left. simpl. by apply Hx.
Qed.

(** X10. [make_random_move] returns the first cell, scanning the board
    column by column and down each column, that was not played and is
    not a known mine; it returns [None] exactly when the board has no
    such cell. *)
Theorem make_random_move_scan st :
  match (make_random_move st).1 with
  | Some c =>
      in_bounds (height st) (width st) c = true ∧
      (c ∉ moves_made st) ∧ (c ∉ mines st) ∧
      ∀ c', in_bounds (height st) (width st) c' = true →
            c' ∉ moves_made st → c' ∉ mines st →
            c' = c ∨ scanned_before c c'
  | None =>
      ∀ c, in_bounds (height st) (width st) c = true →
           c ∈ moves_made st ∨ c ∈ mines st
  end.
Proof.
  unfold make_random_move. cbn [fst].
  destruct (list_find _ _) as [[k c]|] eqn:Hfind; cbn [mbind option_bind snd].
  - apply list_find_Some in Hfind as (Hk & [H1 H2] & Hfirst).
    split_and!; [|done..|].
    { apply elem_of_board_cells. by eapply list_elem_of_lookup_2. }
    intros c' [k' Hk']%elem_of_board_cells%list_elem_of_lookup Hm Hn.
    destruct (decide (k' < k)%nat) as [Hlt|Hge].
    { destruct (Hfirst k' c' Hk' Hlt). by split. }
    destruct (decide (k' = k)) as [->|Hne]; [left; congruence|]. right.
    eapply (sorted_lookup scanned_before _ k k'); [|done|done|lia].
    apply columns_sorted; apply range_sorted.
  - apply list_find_None in Hfind. rewrite Forall_forall in Hfind.
    intros c Hc%elem_of_board_cells. specialize (Hfind c Hc).
    destruct (decide (c ∈ moves_made st)); [by left|].
    destruct (decide (c ∈ mines st)); [by right|]. tauto.
Qed.

(** ** [MinesweeperAI.mark_mine] and [mark_safe] reach every sentence *)

(** X17. [mark_mine(c)] and [mark_safe(c)] put the cell in the set and
    take it out of every sentence, in place: the sentence at each index
    keeps its other cells, and its count goes down by one only for
    [mark_mine] and only if it held the cell. *)
Theorem marks_reach_every_sentence st c i s :
  knowledge st !! i = Some s →
  (c ∈ mines (mark_mine st c) ∧
   ∃ s', knowledge (mark_mine st c) !! i = Some s' ∧
         cells s' = cells s ∖ {[ c ]} ∧
         count s' = count s - (if decide (c ∈ cells s) then 1 else 0)) ∧
  (c ∈ safes (mark_safe st c) ∧
   ∃ s', knowledge (mark_safe st c) !! i = Some s' ∧
         cells s' = cells s ∖ {[ c ]} ∧ count s' = count s).
Proof.
  intros Hi. split.
  - split; [cbn [mark_mine mines]; set_solver|].
    exists (sentence_mark_mine c s). cbn [mark_mine knowledge].
    rewrite list_lookup_fmap, Hi. split; [done|].
    unfold sentence_mark_mine. case_decide; cbn [cells count];
      split; [done|lia|set_solver|lia].
  - split; [cbn [mark_safe safes]; set_solver|].
    exists (sentence_mark_safe c s). cbn [mark_safe knowledge].
    rewrite list_lookup_fmap, Hi. split; [done|].
    unfold sentence_mark_safe. case_decide; cbn [cells count];
      split; [done|done|set_solver|done].
Qed.

Lemma marks_reach_every_sentence_witness :
  ((1, 1) ∈ mines (mark_mine twin_engine (1, 1)) ∧
   ∃ s', knowledge (mark_mine twin_engine (1, 1)) !! 1%nat = Some s' ∧
         cells s' = cells twin_sentence ∖ {[ (1, 1) ]} ∧
         count s' = count twin_sentence
                    - (if decide ((1, 1) ∈ cells twin_sentence) then 1 else 0)) ∧
  ((1, 1) ∈ safes (mark_safe twin_engine (1, 1)) ∧
   ∃ s', knowledge (mark_safe twin_engine (1, 1)) !! 1%nat = Some s' ∧
         cells s' = cells twin_sentence ∖ {[ (1, 1) ]} ∧
         count s' = count twin_sentence).
Proof.
  apply (marks_reach_every_sentence twin_engine (1, 1) 1 twin_sentence).
  reflexivity.
Defined.

(** ** Order of the marking loops *)

Lemma marked_any_order_witness :
  foldl mark_mine
    (foldl mark_safe
       (set_knowledge
          (set_knowledge (init 8 8)
             [ {| cells := {[ (0, 0); (0, 1) ]}; count := 0 |} ])
          (cleanup
             (collect [ {| cells := {[ (0, 0); (0, 1) ]}; count := 0 |} ]).1.1
             [ {| cells := {[ (0, 0); (0, 1) ]}; count := 0 |} ]))
       [(0, 0); (0, 1)])
    []
  = marked (set_knowledge (init 8 8)
              [ {| cells := {[ (0, 0); (0, 1) ]}; count := 0 |} ]).
Proof.
  apply (marked_any_order
           (set_knowledge (init 8 8)
              [ {| cells := {[ (0, 0); (0, 1) ]}; count := 0 |} ])
           [(0, 0); (0, 1)] []).
  - vm_compute. apply perm_swap.
  - vm_compute. apply perm_nil.
Defined.


(** ** Counts that are not truthful *)

Lemma hollow_inj a b : hollow a = hollow b → a = b.
Proof. by intros [=]. Qed.

Lemma difference_hollow a b : difference_sentence (hollow a) (hollow b) = hollow (b - a).
Proof. apply sentence_eq; cbn; [set_solver|done]. Qed.

(** Two sentences without cells are each a subset of the other: the
    loop subtracts their counts three times. *)
Lemma combine_hollow a b ch :
  a ≠ b → b - a ≠ a → b - a ≠ 2 * a - b →
  combine ([hollow a; hollow b], ch)
  = ([hollow (b - a); hollow (3 * a - 2 * b)], true).
Proof.
  intros H1 H2 H3.
  assert (hollow a ≠ hollow b) by (intros ?%hollow_inj; done).
  assert (hollow (b - a) ≠ hollow a) by (intros ?%hollow_inj; done).
  assert (hollow (b - a) ≠ hollow (2 * a - b)) by (intros ?%hollow_inj; done).
  unfold combine. cbn [fst length].
  rewrite (for_in_step _ _ _ _ _ (hollow a)) by done.
  assert (resolve_inner (hollow a) ([hollow a; hollow b], ch)
          = ([hollow a; hollow (b - a)], true)) as ->.
  { unfold resolve_inner. cbn [fst length].
    rewrite (for_in_step _ _ _ _ _ (hollow a)) by done.
    rewrite resolve_body_same.
    rewrite (for_in_step _ _ _ _ _ (hollow b)) by done.
    rewrite resolve_body_subset by done. cbn [fst app for_in].
    rewrite remove_first_tail by done.
    by rewrite remove_first_head, difference_hollow. }
  rewrite (for_in_step _ _ _ _ _ (hollow (b - a))) by done.
  unfold resolve_inner. cbn [fst length].
  rewrite (for_in_step _ _ _ _ _ (hollow a)) by done.
  rewrite resolve_body_subset by done. cbn [fst app].
  rewrite remove_first_head, difference_hollow.
  replace (a - (b - a)) with (2 * a - b) by lia.
  rewrite (for_in_step _ _ _ _ _ (hollow (2 * a - b))) by done.
  rewrite resolve_body_subset by done. cbn [fst app for_in].
  rewrite remove_first_tail by done.
  rewrite remove_first_head, difference_hollow.
  by replace (2 * a - b - (b - a)) with (3 * a - 2 * b) by lia.
Qed.

Lemma sweep_hollow st a b :
  a ≠ 0 → b ≠ 0 → a ≠ b → b - a ≠ a → b - a ≠ 2 * a - b →
  sweep (set_knowledge st [hollow a; hollow b])
  = (set_knowledge st [hollow (b - a); hollow (3 * a - 2 * b)], true).
Proof.
  intros Ha Hb H1 H2 H3.
  assert (∀ x, x ≠ 0 → known_safes (hollow x) = ∅ ∧ known_mines (hollow x) = ∅)
    as Hq.
  { intros x Hx. split; [by apply known_safes_nonzero|].
    apply known_mines_partial. cbn. rewrite size_empty. lia. }
  destruct (Hq a Ha) as [Hsa Hma], (Hq b Hb) as [Hsb Hmb].
  rewrite sweep_quiet; cbn [knowledge set_knowledge].
  - rewrite cleanup_filter, !filter_cons, filter_nil.
    rewrite !decide_True by (cbn; intros [_ ?]; done).
    by rewrite combine_hollow.
  - rewrite !fmap_cons, fmap_nil, union_list_two, Hsa, Hsb. set_solver.
  - rewrite !fmap_cons, fmap_nil, union_list_two, Hma, Hmb. set_solver.
Qed.

Lemma hollow_loop fuel st a b :
  knowledge st = [hollow a; hollow b] →
  a * b < 0 → 2 * Z.abs a < Z.abs b →
  inference fuel st = None.
Proof.
  revert st a b. induction fuel as [|fuel IH]; intros st a b Hk Hab Hlt; [done|].
  cbn [inference]. rewrite <- (set_knowledge_self st), Hk.
  rewrite sweep_hollow by lia.
  apply (IH _ (b - a) (3 * a - 2 * b)); [done|nia|lia].
Qed.

(** X18. The loop has no bound of its own.  On an engine whose
    [knowledge] is two sentences without cells, with counts of opposite
    signs, the second more than twice the first in absolute value,
    every sweep sets [knowledge_changed] and leaves such a pair again:
    the loop never returns. *)
Theorem hollow_sentences_diverge st a b :
  knowledge st = [hollow a; hollow b] →
  a * b < 0 → 2 * Z.abs a < Z.abs b →
  (∃ st', sweep st = (st', true) ∧
          knowledge st' = [hollow (b - a); hollow (3 * a - 2 * b)] ∧
          (b - a) * (3 * a - 2 * b) < 0 ∧
          2 * Z.abs (b - a) < Z.abs (3 * a - 2 * b)) ∧
  ∀ fuel, inference fuel st = None.
Proof.
  intros Hk Hab Hlt. split.
  - exists (set_knowledge st [hollow (b - a); hollow (3 * a - 2 * b)]).
    split_and!; [|done|nia|lia].
    rewrite <- (set_knowledge_self st) at 1. rewrite Hk.
    by rewrite sweep_hollow by lia.
  - intros fuel. by eapply hollow_loop.
Qed.

(** A third call with a false count on [misled_engine] leads there. *)
Lemma misled_engine_calls :
  (add_knowledge 2 (0, 0) 0 (init 2 2) ≫= add_knowledge 2 (0, 1) 1)
  = Some misled_engine.
Proof. by vm_compute. Qed.

Lemma untruthful_count_never_returns fuel :
  add_knowledge fuel (1, 0) 3 misled_engine = None.
Proof.
  unfold add_knowledge.
  set (st := record_observation (1, 0) 3 misled_engine).
  assert (sweep st
          = (set_knowledge st [hollow 2; hollow (-3)], true)) as H1
    by by vm_compute.
  assert (sweep (set_knowledge st [hollow 2; hollow (-3)])
          = (set_knowledge st [hollow (-5); hollow 12], true)) as H2
    by by vm_compute.
  destruct fuel as [|[|fuel]]; [done|cbn [inference]; by rewrite H1|].
  cbn [inference]. rewrite H1, H2.
  apply (hollow_loop _ _ (-5) 12); [done|lia|lia].
Qed.

Lemma hollow_sentences_diverge_witness :
  (∃ st', sweep (set_knowledge (init 2 2) [hollow (-5); hollow 12])
          = (st', true) ∧
          knowledge st' = [hollow (12 - -5); hollow (3 * -5 - 2 * 12)] ∧
          (12 - -5) * (3 * -5 - 2 * 12) < 0 ∧
          2 * Z.abs (12 - -5) < Z.abs (3 * -5 - 2 * 12)) ∧
  ∀ fuel, inference fuel (set_knowledge (init 2 2) [hollow (-5); hollow 12])
          = None.
Proof.
  apply (hollow_sentences_diverge
           (set_knowledge (init 2 2) [hollow (-5); hollow 12]) (-5) 12);
    [reflexivity|lia|lia].
Defined.
